(** * instant-sqlite: the SQLite storage adapter behind AsyncStorage

    A shallow embedding of [lib/storage-adapter.ts].  The adapter is a class
    with two fields ([db], [ready]) whose methods are [async] functions that
    talk to an expo-sqlite connection.  Here:

    - the table [kv_storage] is a finite map from the primary key to the
      other three columns;
    - an [async] method is a function from the world to an outcome (the
      promise resolves or rejects) and the world afterwards;
    - the driver may fail on any statement: the world carries the schedule
      of upcoming faults, one flag per statement sent to the engine.

    On top of the adapter come the shim of [lib/instantdb-sqlite.ts], which
    rebinds the methods of AsyncStorage, and the start-up routine of
    [app/_layout.tsx]. *)

From Stdlib Require Import ZArith String Ascii.
From stdpp Require Import base option gmap strings list sorting fin_maps.

#[local] Open Scope string_scope.
#[local] Open Scope Z_scope.

(** ** The persisted table *)

(** One row of [kv_storage (key TEXT PRIMARY KEY, value TEXT,
    created_at INTEGER DEFAULT 0, updated_at INTEGER DEFAULT 0)];
    the key is the index of the map below. *)
Record Row : Type := mkRow {
  value : string;
  created_at : Z;
  updated_at : Z
}.

Abbreviation Table := (gmap string Row).

(** ** Faults, outcomes, log *)

Inductive Error : Type :=
| NotInitialized   (* 'SQLite storage not initialized. Call init() first.' *)
| OpenFailed       (* 'Failed to open SQLite database - db is null' *)
| NullDereference  (* a method called on a null [db] *)
| SQLiteError.     (* anything the driver rejects with *)

Inductive Outcome (A : Type) : Type :=
| Resolved (a : A)
| Rejected (e : Error).
Arguments Resolved {A} a.
Arguments Rejected {A} e.

(** What the adapter prints, one constructor per call site. *)
Inductive LogEntry : Type :=
| LogInitializing
| LogInitialized
| LogCleared
| ErrInit (e : Error)
| ErrGetItem (key : string) (e : Error)
| ErrSetItem (key : string) (e : Error)
| ErrRemoveItem (key : string) (e : Error)
| ErrMultiGet (e : Error)
| ErrMultiSet (e : Error)
| ErrMultiRemove (e : Error)
| ErrGetAllKeys (e : Error)
| ErrClear (e : Error)
| ErrGetStorageSize (e : Error).

(** A connection returned by [SQLite.openDatabaseAsync]. *)
Inductive SQLiteDatabase : Type :=
| Connection (databaseName : string).

(** ** The world *)

(** [disk] is [kv_storage] inside instantdb-storage.db ([None] until the
    table is created); [journal] holds the image saved by [BEGIN] while a
    transaction is open; [faults] lists, for the statements to come, whether
    the engine fails on them (past its end nothing fails); [clock] is what
    [Date.now()] reads, in milliseconds.  [db] and [ready] are the two
    fields of the adapter instance. *)
Record World : Type := mkWorld {
  disk : option Table;
  journal : option (option Table);
  faults : list bool;
  clock : Z;
  console : list LogEntry;
  db : option SQLiteDatabase;
  ready : bool
}.

Definition set_disk (d : option Table) (w : World) : World :=
  mkWorld d (journal w) (faults w) (clock w) (console w) (db w) (ready w).
Definition set_journal (j : option (option Table)) (w : World) : World :=
  mkWorld (disk w) j (faults w) (clock w) (console w) (db w) (ready w).
Definition set_faults (fs : list bool) (w : World) : World :=
  mkWorld (disk w) (journal w) fs (clock w) (console w) (db w) (ready w).
Definition set_clock (t : Z) (w : World) : World :=
  mkWorld (disk w) (journal w) (faults w) t (console w) (db w) (ready w).
Definition set_console (c : list LogEntry) (w : World) : World :=
  mkWorld (disk w) (journal w) (faults w) (clock w) c (db w) (ready w).
Definition set_db (h : option SQLiteDatabase) (w : World) : World :=
  mkWorld (disk w) (journal w) (faults w) (clock w) (console w) h (ready w).
Definition set_ready (b : bool) (w : World) : World :=
  mkWorld (disk w) (journal w) (faults w) (clock w) (console w) (db w) b.

(** ** Async computations *)

Definition Async (A : Type) : Type := World → Outcome A * World.

Definition resolve {A} (a : A) : Async A := λ w, (Resolved a, w).
Definition throw {A} (e : Error) : Async A := λ w, (Rejected e, w).
Definition await {A B} (m : Async A) (k : A → Async B) : Async B :=
  λ w, match m w with
       | (Resolved a, w') => k a w'
       | (Rejected e, w') => (Rejected e, w')
       end.

#[global] Instance Async_ret : MRet Async := @resolve.
#[global] Instance Async_bind : MBind Async := λ A B k m, await m k.

(** [try { body } catch (error) { handler }]: what [body] did to the world
    before it threw stays done. *)
Definition try_catch {A} (body : Async A) (handler : Error → Async A) : Async A :=
  λ w, match body w with
       | (Resolved a, w') => (Resolved a, w')
       | (Rejected e, w') => handler e w'
       end.

(** [for (const x of xs) { await body(x) }] *)
Fixpoint for_of {A} (xs : list A) (body : A → Async unit) : Async unit :=
  match xs with
  | [] => mret ()
  | x :: rest => body x ;; for_of rest body
  end.

Definition get {A} (field : World → A) : Async A := λ w, (Resolved (field w), w).
Definition modify (f : World → World) : Async unit := λ w, (Resolved (), f w).

Definition console_log (entry : LogEntry) : Async unit :=
  modify (λ w, set_console (console w ++ [entry]) w).
Definition console_error (entry : LogEntry) : Async unit :=
  modify (λ w, set_console (console w ++ [entry]) w).

(** [Date.now()] reads the clock, a whole number of milliseconds;
    [Math.floor(x / y)] on whole numbers is the quotient rounded down. *)
Definition Date_now : Async Z := get clock.
Definition Math_floor_div (x y : Z) : Z := x `div` y.

(** The next statement fails. *)
Definition next_fault (w : World) : bool :=
  match faults w with
  | b :: _ => b
  | [] => false
  end.

(** ** The driver (expo-sqlite), as the adapter uses it *)

(** One statement sent to the engine.  The head of the fault schedule says
    whether the engine fails on it; a failed statement changes nothing.
    Otherwise the statement's meaning [sem] is applied to the table; [None]
    from [sem] is an SQL error (no such table). *)
Definition sqlite3_step {A} (sem : option Table → option (A * option Table)) : Async A :=
  λ w, let w1 := set_faults (tail (faults w)) w in
       if next_fault w then (Rejected SQLiteError, w1)
       else match sem (disk w1) with
            | Some (a, d) => (Resolved a, set_disk d w1)
            | None => (Rejected SQLiteError, w1)
            end.

(** A query reads [kv_storage]; a DML statement rewrites it; both need the
    table to exist. *)
Definition reading {A} (q : Table → A) : option Table → option (A * option Table) :=
  λ d, t ← d; Some (q t, Some t).
Definition writing (u : Table → Table) : option Table → option (unit * option Table) :=
  λ d, t ← d; Some ((), Some (u t)).

Definition openDatabaseAsync (databaseName : string) : Async SQLiteDatabase :=
  λ w, let w1 := set_faults (tail (faults w)) w in
       if next_fault w then (Rejected SQLiteError, w1)
       else (Resolved (Connection databaseName), w1).

Definition execAsync (h : SQLiteDatabase)
    (script : option Table → option (unit * option Table)) : Async unit :=
  sqlite3_step script.
Definition runAsync (h : SQLiteDatabase) (u : Table → Table) : Async unit :=
  sqlite3_step (writing u).
Definition getAllAsync {A} (h : SQLiteDatabase) (q : Table → list A) : Async (list A) :=
  sqlite3_step (reading q).
Definition getFirstAsync {A} (h : SQLiteDatabase) (q : Table → list A) : Async (option A) :=
  rows ← sqlite3_step (reading q); mret (head rows).

(** [BEGIN], [COMMIT], [ROLLBACK].  [BEGIN] saves the image of the table and
    fails inside an open transaction; [COMMIT] discards the saved image;
    [ROLLBACK] puts it back and fails when no transaction is open.  A
    rollback of an open transaction is not subject to the fault schedule:
    the engine's journal guarantees it, that is its atomicity contract. *)
Definition BEGIN : Async unit :=
  λ w, let w1 := set_faults (tail (faults w)) w in
       if next_fault w then (Rejected SQLiteError, w1)
       else match journal w1 with
            | Some _ => (Rejected SQLiteError, w1)
            | None => (Resolved (), set_journal (Some (disk w1)) w1)
            end.
Definition COMMIT : Async unit :=
  λ w, let w1 := set_faults (tail (faults w)) w in
       if next_fault w then (Rejected SQLiteError, w1)
       else match journal w1 with
            | Some _ => (Resolved (), set_journal None w1)
            | None => (Rejected SQLiteError, w1)
            end.
Definition ROLLBACK : Async unit :=
  λ w, match journal w with
       | Some d => (Resolved (), set_journal None (set_disk d w))
       | None => (Rejected SQLiteError, w)
       end.

(** [try { BEGIN; await task(); COMMIT } catch (e) { ROLLBACK; throw e }] *)
Definition withTransactionAsync (h : SQLiteDatabase) (task : Async unit) : Async unit :=
  try_catch (BEGIN ;; task ;; COMMIT)
            (λ e, ROLLBACK ;; throw e).

(** ** The SQL the adapter sends *)

(** [CREATE TABLE IF NOT EXISTS kv_storage (...);
     CREATE INDEX IF NOT EXISTS idx_key ON kv_storage(key);] *)
Definition create_schema : option Table → option (unit * option Table) :=
  λ d, match d with
       | None => Some ((), Some ∅)
       | Some t => Some ((), Some t)
       end.

(** [SELECT value FROM kv_storage WHERE key = ?] *)
Definition select_value (key : string) (t : Table) : list string :=
  match t !! key with
  | Some r => [value r]
  | None => []
  end.

(** [INSERT INTO kv_storage (key, value, updated_at) VALUES (?, ?, ?)
     ON CONFLICT(key) DO UPDATE SET value = excluded.value,
                                    updated_at = excluded.updated_at]:
    a new row takes the column default for [created_at]; on conflict only
    [value] and [updated_at] are overwritten. *)
Definition upsert (key val : string) (now : Z) (t : Table) : Table :=
  match t !! key with
  | None => <[key := mkRow val 0 now]> t
  | Some r => <[key := mkRow val (created_at r) now]> t
  end.

(** [DELETE FROM kv_storage WHERE key = ?] *)
Definition delete_key (key : string) (t : Table) : Table := delete key t.

(** [SELECT key, value FROM kv_storage WHERE key IN (?,...,?)] *)
Definition select_in (keys : list string) (t : Table) : list (string * string) :=
  (λ kr, (kr.1, value kr.2)) <$> filter (λ kr, kr.1 ∈ keys) (map_to_list t).

(** [DELETE FROM kv_storage WHERE key IN (?,...,?)] *)
Definition delete_in (keys : list string) (t : Table) : Table :=
  filter (λ kr, kr.1 ∉ keys) t.

(** [SELECT key FROM kv_storage ORDER BY key]: TEXT compares bytewise. *)
Definition key_le (a b : string) : Prop := Is_true (String.leb a b).
#[global] Instance key_le_dec : RelDecision key_le := λ a b, Is_true_dec _.
Definition select_keys (t : Table) : list string :=
  merge_sort key_le ((map_to_list t).*1).

(** [DELETE FROM kv_storage] *)
Definition delete_all (t : Table) : Table := ∅.

(** [SELECT COUNT( * ) as count FROM kv_storage]: always one row. *)
Definition select_count (t : Table) : list Z := [Z.of_nat (size t)].

(** ** JavaScript helpers *)

(** [new Map(entries)]: later entries overwrite earlier ones. *)
Definition Map_new (entries : list (string * string)) : gmap string string :=
  foldl (λ m kv, <[kv.1 := kv.2]> m) ∅ entries.

(** [x || null] for [x : string | undefined]: the empty string is falsy. *)
Definition or_null (x : option string) : option string :=
  match x with
  | Some s => if decide (s = "") then None else Some s
  | None => None
  end.

(** ** The adapter: [class SQLiteStorageAdapter] *)

Module SQLiteStorageAdapter.

(** [this.db!]: the assertion is erased at run time; a method call on
    [null] throws. *)
Definition this_db : Async SQLiteDatabase :=
  λ w, match db w with
       | Some h => (Resolved h, w)
       | None => (Rejected NullDereference, w)
       end.

Definition init : Async unit :=
  try_catch
    (console_log LogInitializing ;;
     h ← openDatabaseAsync "instantdb-storage.db";
     modify (set_db (Some h)) ;;
     opened ← get db;
     (if bool_decide (opened = None) then throw OpenFailed else mret ()) ;;
     h ← this_db;
     execAsync h create_schema ;;
     modify (set_ready true) ;;
     console_log LogInitialized)
    (λ error, console_error (ErrInit error) ;; throw error).

Definition ensureReady : Async unit :=
  λ w, if negb (ready w) || bool_decide (db w = None)
       then (Rejected NotInitialized, w)
       else (Resolved (), w).

(** The row object of [getFirstAsync<{ value: string }>] is its one column:
    [result ? result.value : null] tests the row, not the value. *)
Definition getItem (key : string) : Async (option string) :=
  ensureReady ;;
  try_catch
    (h ← this_db;
     result ← getFirstAsync h (select_value key);
     mret (match result with
           | Some v => Some v
           | None => None
           end))
    (λ error, console_error (ErrGetItem key error) ;; mret None).

Definition setItem (key val : string) : Async unit :=
  ensureReady ;;
  try_catch
    (ms ← Date_now;
     let now := Math_floor_div ms 1000 in
     h ← this_db;
     runAsync h (upsert key val now))
    (λ error, console_error (ErrSetItem key error) ;; throw error).

Definition removeItem (key : string) : Async unit :=
  ensureReady ;;
  try_catch
    (h ← this_db;
     runAsync h (delete_key key))
    (λ error, console_error (ErrRemoveItem key error) ;; throw error).

Definition multiGet (keys : list string) : Async (list (string * option string)) :=
  ensureReady ;;
  try_catch
    (h ← this_db;
     results ← getAllAsync h (select_in keys);
     let resultMap := Map_new results in
     mret ((λ key, (key, or_null (resultMap !! key))) <$> keys))
    (λ error, console_error (ErrMultiGet error) ;;
              mret ((λ key, (key, None)) <$> keys)).

Definition multiSet (keyValuePairs : list (string * string)) : Async unit :=
  ensureReady ;;
  try_catch
    (ms ← Date_now;
     let now := Math_floor_div ms 1000 in
     h ← this_db;
     withTransactionAsync h
       (for_of keyValuePairs (λ kv,
          h ← this_db;
          runAsync h (upsert kv.1 kv.2 now))))
    (λ error, console_error (ErrMultiSet error) ;; throw error).

Definition multiRemove (keys : list string) : Async unit :=
  ensureReady ;;
  try_catch
    (h ← this_db;
     runAsync h (delete_in keys))
    (λ error, console_error (ErrMultiRemove error) ;; throw error).

Definition getAllKeys : Async (list string) :=
  ensureReady ;;
  try_catch
    (h ← this_db;
     results ← getAllAsync h select_keys;
     mret results)
    (λ error, console_error (ErrGetAllKeys error) ;; mret []).

Definition clear : Async unit :=
  ensureReady ;;
  try_catch
    (h ← this_db;
     runAsync h delete_all ;;
     console_log LogCleared)
    (λ error, console_error (ErrClear error) ;; throw error).

Definition getStorageSize : Async Z :=
  ensureReady ;;
  try_catch
    (h ← this_db;
     result ← getFirstAsync h select_count;
     mret (match result with
           | Some count => count
           | None => 0
           end))
    (λ error, console_error (ErrGetStorageSize error) ;; mret 0).

End SQLiteStorageAdapter.
Import SQLiteStorageAdapter.

(** [export const sqliteStorage = new SQLiteStorageAdapter()] on a device
    whose database file holds [d], at time [t], with [fs] the faults to
    come. *)
Definition sqliteStorage (d : option Table) (t : Z) (fs : list bool) : World :=
  mkWorld d None fs t [] None false.

(** [getStorageStats] of lib/instantdb-sqlite.ts. *)
Definition getStorageStats : Async (Z * string) :=
  size ← getStorageSize; mret (size, "SQLite").

(** ** Sessions *)

(** What a client of the adapter can do, one call at a time, each awaited
    before the next; [Elapse] is time passing between two calls. *)
Inductive Call : Type :=
| CallInit
| CallGetItem (key : string)
| CallSetItem (key val : string)
| CallRemoveItem (key : string)
| CallMultiGet (keys : list string)
| CallMultiSet (keyValuePairs : list (string * string))
| CallMultiRemove (keys : list string)
| CallGetAllKeys
| CallClear
| CallGetStorageSize
| Elapse (ms : Z).

(** The world after a call, whatever the call returned. *)
Definition perform (c : Call) (w : World) : World :=
  match c with
  | CallInit => (init w).2
  | CallGetItem key => (getItem key w).2
  | CallSetItem key val => (setItem key val w).2
  | CallRemoveItem key => (removeItem key w).2
  | CallMultiGet keys => (multiGet keys w).2
  | CallMultiSet keyValuePairs => (multiSet keyValuePairs w).2
  | CallMultiRemove keys => (multiRemove keys w).2
  | CallGetAllKeys => (getAllKeys w).2
  | CallClear => (clear w).2
  | CallGetStorageSize => (getStorageSize w).2
  | Elapse ms => set_clock (clock w + Z.max 0 ms) w
  end.

Definition session (cs : list Call) (w : World) : World :=
  foldl (λ w c, perform c w) w cs.

(** The call writes [key] / the call removes [key]. *)
Definition writes (key : string) (c : Call) : Prop :=
  match c with
  | CallSetItem k _ => k = key
  | CallMultiSet keyValuePairs => key ∈ keyValuePairs.*1
  | _ => False
  end.

Definition removes (key : string) (c : Call) : Prop :=
  match c with
  | CallRemoveItem k => k = key
  | CallMultiRemove keys => key ∈ keys
  | CallClear => True
  | _ => False
  end.

#[global] Instance writes_dec key c : Decision (writes key c).
Proof. destruct c; simpl; apply _. Defined.
#[global] Instance removes_dec key c : Decision (removes key c).
Proof. destruct c; simpl; apply _. Defined.

(** ** Predicates on worlds *)

(** The record stored under [key], if the table exists and has one. *)
Definition stored (w : World) (key : string) : option Row :=
  t ← disk w; t !! key.

(** [init()] has completed: both fields are set. *)
Definition is_ready (w : World) : Prop :=
  ready w = true ∧ db w ≠ None.

(** A ready adapter over an existing table, with no transaction open. *)
Definition Initialized (w : World) : Prop :=
  is_ready w ∧ is_Some (disk w) ∧ journal w = None.

(** None of the next [n] statements fails. *)
Definition calm (n : nat) (w : World) : Prop :=
  Forall (λ b, b = false) (take n (faults w)).

#[global] Instance is_ready_dec w : Decision (is_ready w).
Proof. unfold is_ready. apply _. Defined.
#[global] Instance calm_dec n w : Decision (calm n w).
Proof. unfold calm. apply _. Defined.

(** The world once the next statement has been sent. *)
Definition sent (w : World) : World := set_faults (tail (faults w)) w.

(** The world with one more line on the console. *)
Definition logged (entry : LogEntry) (w : World) : World :=
  set_console (console w ++ [entry]) w.

(** ** Derived updates and relations between worlds *)

(** The batch of a [multiSet], as one update of the table. *)
Definition upsert_all (now : Z) (kvs : list (string * string)) (t : Table) : Table :=
  foldl (λ t kv, upsert kv.1 kv.2 now t) t kvs.

(** The body of the loop of [multiSet]. *)
Definition upsert_pair (now : Z) (kv : string * string) : Async unit :=
  h ← this_db; runAsync h (upsert kv.1 kv.2 now).

(** A call that may only read: the table, the journal and the adapter's
    fields are as before. *)
Definition same_store (w w' : World) : Prop :=
  disk w' = disk w ∧ journal w' = journal w ∧ db w' = db w ∧ ready w' = ready w.

(** A call that writes: either nothing changed, or the table went from [t]
    to [u t]. *)
Definition updated (u : Table → Table) (w w' : World) : Prop :=
  journal w' = journal w ∧ db w' = db w ∧ ready w' = ready w
  ∧ (disk w' = disk w ∨ ∃ t, disk w = Some t ∧ disk w' = Some (u t)).

(** The update a call asks of the table. *)
Definition call_update (now : Z) (c : Call) : Table → Table :=
  match c with
  | CallSetItem key val => upsert key val now
  | CallRemoveItem key => delete key
  | CallMultiSet kvs => upsert_all now kvs
  | CallMultiRemove keys => delete_in keys
  | CallClear => λ _, ∅
  | _ => id
  end.

(** One step of a session, seen from the table. *)
Definition stepped (c : Call) (w w' : World) : Prop :=
  journal w' = None
  ∧ (is_ready w → is_ready w')
  ∧ (is_Some (disk w) → is_Some (disk w'))
  ∧ ((∀ k, stored w' k = stored w k)
     ∨ ∃ t, disk w = Some t ∧ disk w' = Some (call_update (clock w `div` 1000) c t)).

(** A ready adapter over the table [t]. *)
Definition ready_world (t : Table) (now : Z) (fs : list bool) : World :=
  mkWorld (Some t) None fs now [] (Some (Connection "instantdb-storage.db")) true.

(** ** The binding shim: lib/instantdb-sqlite.ts *)

(** The methods of the adapter that get bound into AsyncStorage. *)
Inductive AdapterMethod : Type :=
| MgetItem | MsetItem | MremoveItem | MmultiGet
| MmultiSet | MmultiRemove | MgetAllKeys | Mclear.

(** A function held by a property of the AsyncStorage object: one the
    package shipped, known by its name, or
    [sqliteStorage.m.bind(sqliteStorage)]. *)
Inductive Fn : Type :=
| NativeFn (name : string)
| BoundFn (m : AdapterMethod).

#[global] Instance AdapterMethod_eq_dec : EqDecision AdapterMethod.
Proof. solve_decision. Defined.
#[global] Instance Fn_eq_dec : EqDecision Fn.
Proof. solve_decision. Defined.

(** [config: { appId: string }] and the client [instantInit(config)]
    returns.  The sync library is not part of this code: its client is a
    token here, and what the library then does with storage it does through
    the shim, as later calls. *)
Record Config : Type := mkConfig { appId : string }.
Inductive InstantClient : Type :=
| Client (config : Config).
Definition instantInit (config : Config) : InstantClient := Client config.

Inductive AppError : Type :=
| StorageFault (e : Error)     (* thrown by the adapter *)
| ModuleNotFound               (* require(...) failed *)
| DatabaseNotInitialized.      (* getDB before initialization *)

Inductive AppOutcome (A : Type) : Type :=
| AppResolved (a : A)
| AppRejected (e : AppError).
Arguments AppResolved {A} a.
Arguments AppRejected {A} e.

Inductive AppLog : Type :=
| LogSettingUp
| LogOverridden
| ErrOverride (e : AppError)
| LogInstantInitialized
| LogRestored
| LogStarting
| LogStats (itemCount : Z) (storageType : string)
| LogAppInitialized
| ErrInitialization (e : AppError).

(** The application: the adapter instance and its world; the default
    export of @react-native-async-storage/async-storage as a map from
    property names to functions ([None] when the package cannot be
    loaded); the module variable [originalAsyncStorage]; and, from
    app/_layout.tsx, the module variable [db] and the two pieces of state
    of [RootLayout]. *)
Record App : Type := mkApp {
  storage : World;
  AsyncStorageModule : option (gmap string Fn);
  originalAsyncStorage : option (gmap string Fn);
  app_console : list AppLog;
  layout_db : option InstantClient;
  isReady : bool;
  error : option AppError
}.

Definition set_storage (w : World) (a : App) : App :=
  mkApp w (AsyncStorageModule a) (originalAsyncStorage a) (app_console a)
        (layout_db a) (isReady a) (error a).
Definition set_AsyncStorageModule (m : option (gmap string Fn)) (a : App) : App :=
  mkApp (storage a) m (originalAsyncStorage a) (app_console a)
        (layout_db a) (isReady a) (error a).
Definition set_originalAsyncStorage (m : option (gmap string Fn)) (a : App) : App :=
  mkApp (storage a) (AsyncStorageModule a) m (app_console a)
        (layout_db a) (isReady a) (error a).
Definition set_app_console (c : list AppLog) (a : App) : App :=
  mkApp (storage a) (AsyncStorageModule a) (originalAsyncStorage a) c
        (layout_db a) (isReady a) (error a).
Definition set_layout_db (d : option InstantClient) (a : App) : App :=
  mkApp (storage a) (AsyncStorageModule a) (originalAsyncStorage a) (app_console a)
        d (isReady a) (error a).
Definition setIsReady (b : bool) (a : App) : App :=
  mkApp (storage a) (AsyncStorageModule a) (originalAsyncStorage a) (app_console a)
        (layout_db a) b (error a).
Definition setError (e : option AppError) (a : App) : App :=
  mkApp (storage a) (AsyncStorageModule a) (originalAsyncStorage a) (app_console a)
        (layout_db a) (isReady a) e.

Definition AppAsync (A : Type) : Type := App → AppOutcome A * App.

Definition app_resolve {A} (x : A) : AppAsync A := λ a, (AppResolved x, a).
Definition app_throw {A} (e : AppError) : AppAsync A := λ a, (AppRejected e, a).
Definition app_await {A B} (m : AppAsync A) (k : A → AppAsync B) : AppAsync B :=
  λ a, match m a with
       | (AppResolved x, a') => k x a'
       | (AppRejected e, a') => (AppRejected e, a')
       end.

#[global] Instance AppAsync_ret : MRet AppAsync := @app_resolve.
#[global] Instance AppAsync_bind : MBind AppAsync := λ A B k m, app_await m k.

Definition app_try_catch {A} (body : AppAsync A) (handler : AppError → AppAsync A)
    : AppAsync A :=
  λ a, match body a with
       | (AppResolved x, a') => (AppResolved x, a')
       | (AppRejected e, a') => handler e a'
       end.

Definition app_get {A} (field : App → A) : AppAsync A := λ a, (AppResolved (field a), a).
Definition app_modify (f : App → App) : AppAsync unit := λ a, (AppResolved (), f a).
Definition app_log (entry : AppLog) : AppAsync unit :=
  app_modify (λ a, set_app_console (app_console a ++ [entry]) a).

(** A call into the adapter: [await sqliteStorage.m(...)]. *)
Definition on_storage {A} (m : Async A) : AppAsync A :=
  λ a, match m (storage a) with
       | (Resolved x, w') => (AppResolved x, set_storage w' a)
       | (Rejected e, w') => (AppRejected (StorageFault e), set_storage w' a)
       end.

(** [require('@react-native-async-storage/async-storage').default] *)
Definition require_AsyncStorage : AppAsync (gmap string Fn) :=
  λ a, match AsyncStorageModule a with
       | Some m => (AppResolved m, a)
       | None => (AppRejected ModuleNotFound, a)
       end.

(** [AsyncStorageModule.default.name = f] *)
Definition assign (name : string) (f : Fn) : AppAsync unit :=
  app_modify (λ a, set_AsyncStorageModule ((λ m, <[name := f]> m) <$> AsyncStorageModule a) a).

Definition initWithSQLite (config : Config) : AppAsync InstantClient :=
  app_log LogSettingUp ;;
  on_storage init ;;
  app_try_catch
    (m ← require_AsyncStorage;
     app_modify (set_originalAsyncStorage (Some m)) ;;
     assign "getItem" (BoundFn MgetItem) ;;
     assign "setItem" (BoundFn MsetItem) ;;
     assign "removeItem" (BoundFn MremoveItem) ;;
     assign "multiGet" (BoundFn MmultiGet) ;;
     assign "multiSet" (BoundFn MmultiSet) ;;
     assign "multiRemove" (BoundFn MmultiRemove) ;;
     assign "getAllKeys" (BoundFn MgetAllKeys) ;;
     assign "clear" (BoundFn Mclear) ;;
     app_log LogOverridden)
    (λ error, app_log (ErrOverride error) ;; app_throw error) ;;
  let db := instantInit config in
  app_log LogInstantInitialized ;;
  mret db.

(** [Object.assign(target, source)]: the properties of [source] win. *)
Definition Object_assign (target source : gmap string Fn) : gmap string Fn :=
  source ∪ target.

Definition restoreAsyncStorage : AppAsync unit :=
  saved ← app_get originalAsyncStorage;
  match saved with
  | Some original =>
      m ← require_AsyncStorage;
      app_modify (set_AsyncStorageModule (Some (Object_assign m original))) ;;
      app_log LogRestored
  | None => mret ()
  end.

(** ** The root layout: app/_layout.tsx *)

(** [process.env.EXPO_PUBLIC_INSTANT_APP_ID || '__YOUR_APP_ID__'] *)
Definition APP_ID (env : option string) : string :=
  match env with
  | Some s => if decide (s = "") then "__YOUR_APP_ID__" else s
  | None => "__YOUR_APP_ID__"
  end.

Definition getDB : AppAsync InstantClient :=
  d ← app_get layout_db;
  match d with
  | None => app_throw DatabaseNotInitialized
  | Some client => mret client
  end.

(** [initializeApp] inside the effect of [RootLayout]; [error] holds the
    error whose message [setError] receives. *)
Definition initializeApp (env : option string) : AppAsync unit :=
  app_try_catch
    (app_log LogStarting ;;
     client ← initWithSQLite (mkConfig (APP_ID env));
     app_modify (set_layout_db (Some client)) ;;
     stats ← on_storage getStorageStats;
     app_log (LogStats stats.1 stats.2) ;;
     app_modify (setIsReady true) ;;
     app_log LogAppInitialized)
    (λ err, app_log (ErrInitialization err) ;;
            app_modify (setError (Some err))).

(** The application at launch: nothing initialised, AsyncStorage as the
    package ships it. *)
Definition launch (w : World) (m : option (gmap string Fn)) : App :=
  mkApp w m None [] None false None.

(** The eight property names the shim assigns. *)
Definition overridden : list (string * AdapterMethod) :=
  [("getItem", MgetItem); ("setItem", MsetItem); ("removeItem", MremoveItem);
   ("multiGet", MmultiGet); ("multiSet", MmultiSet); ("multiRemove", MmultiRemove);
   ("getAllKeys", MgetAllKeys); ("clear", Mclear)].

(** The AsyncStorage object once the eight assignments are done. *)
Definition override (m : gmap string Fn) : gmap string Fn :=
  foldl (λ m p, <[p.1 := BoundFn p.2]> m) m overridden.
Arguments override : simpl never.

(** The AsyncStorage object as the package ships it: its eleven methods. *)
Definition AsyncStorage_shipped : gmap string Fn :=
  list_to_map ((λ name, (name, NativeFn name)) <$>
    ["getItem"; "setItem"; "removeItem"; "mergeItem"; "clear"; "getAllKeys";
     "flushGetRequests"; "multiGet"; "multiSet"; "multiRemove"; "multiMerge"]).

(** * Properties *)

(** ** A few runs *)

Example run_roundtrip :
  ((init ;; setItem "a" "1" ;; getItem "a") (sqliteStorage None 1700000000123 [])).1
  = Resolved (Some "1").
Proof. vm_compute. reflexivity. Qed.

Example run_sorted_keys :
  ((init ;; multiSet [("b", "2"); ("a", "1"); ("ab", "3")] ;; getAllKeys)
     (sqliteStorage None 1700000000123 [])).1
  = Resolved ["a"; "ab"; "b"].
Proof. vm_compute. reflexivity. Qed.

Example run_clear_then_keys :
  ((clear ;; getAllKeys) (ready_world {["a" := mkRow "1" 0 5]} 1700000000123 [])).1
  = Resolved [].
Proof. vm_compute. reflexivity. Qed.

Example run_rollback :
  stored (multiSet [("a", "1"); ("b", "2")]
            (ready_world ∅ 1700000000123 [false; false; true])).2 "a"
  = None.
Proof. vm_compute. reflexivity. Qed.

Example run_stats :
  (getStorageStats (ready_world {["a" := mkRow "1" 0 5]} 1700000000123 [])).1
  = Resolved (1, "SQLite").
Proof. vm_compute. reflexivity. Qed.

(** ** Evaluating one call *)

Ltac async_unfold :=
  cbv [init ensureReady getItem setItem removeItem multiGet multiSet multiRemove
       getAllKeys clear getStorageSize this_db
       getFirstAsync getAllAsync runAsync execAsync openDatabaseAsync sqlite3_step
       reading writing BEGIN COMMIT ROLLBACK withTransactionAsync
       Date_now Math_floor_div get modify console_log console_error
       try_catch await resolve throw mbind mret Async_bind Async_ret
       sent logged next_fault is_ready stored
       ready db disk journal faults clock console
       set_disk set_journal set_faults set_clock set_console set_db set_ready
       negb orb andb] in *; cbn in *.

(** Split a world into its fields, and its fault schedule by its head, then
    evaluate the call. *)
Ltac by_cases w :=
  destruct w as [d j [|[|] fs] c l [h|] [|]];
  async_unfold; try (intuition congruence); try reflexivity.

Section OneStatement.
Context (w : World) (Hready : is_ready w).

Lemma ensureReady_ok : ensureReady w = (Resolved (), w).
Proof. revert Hready. by_cases w. Qed.

(** *** getItem *)

Lemma getItem_fault key :
  next_fault w = true →
  getItem key w = (Resolved None, logged (ErrGetItem key SQLiteError) (sent w)).
Proof. revert Hready. by_cases w. Qed.

Lemma getItem_no_table key :
  next_fault w = false → disk w = None →
  getItem key w = (Resolved None, logged (ErrGetItem key SQLiteError) (sent w)).
Proof. revert Hready. by_cases w; intros _ _ ->; reflexivity. Qed.

Lemma getItem_ok key t :
  next_fault w = false → disk w = Some t →
  getItem key w = (Resolved (value <$> t !! key), sent w).
Proof.
  revert Hready. by_cases w; intros _ _ [= ->]; cbn; unfold select_value;
    destruct (t !! key); reflexivity.
Qed.

(** *** setItem *)

Lemma setItem_fault key val :
  next_fault w = true →
  setItem key val w
  = (Rejected SQLiteError, logged (ErrSetItem key SQLiteError) (sent w)).
Proof. revert Hready. by_cases w. Qed.

Lemma setItem_no_table key val :
  next_fault w = false → disk w = None →
  setItem key val w
  = (Rejected SQLiteError, logged (ErrSetItem key SQLiteError) (sent w)).
Proof. revert Hready. by_cases w; intros _ _ ->; reflexivity. Qed.

Lemma setItem_ok key val t :
  next_fault w = false → disk w = Some t →
  setItem key val w
  = (Resolved (), set_disk (Some (upsert key val (clock w `div` 1000) t)) (sent w)).
Proof. revert Hready. by_cases w; intros _ _ [= ->]; reflexivity. Qed.

(** *** removeItem *)

Lemma removeItem_fault key :
  next_fault w = true →
  removeItem key w
  = (Rejected SQLiteError, logged (ErrRemoveItem key SQLiteError) (sent w)).
Proof. revert Hready. by_cases w. Qed.

Lemma removeItem_no_table key :
  next_fault w = false → disk w = None →
  removeItem key w
  = (Rejected SQLiteError, logged (ErrRemoveItem key SQLiteError) (sent w)).
Proof. revert Hready. by_cases w; intros _ _ ->; reflexivity. Qed.

Lemma removeItem_ok key t :
  next_fault w = false → disk w = Some t →
  removeItem key w = (Resolved (), set_disk (Some (delete key t)) (sent w)).
Proof. revert Hready. by_cases w; intros _ _ [= ->]; reflexivity. Qed.

(** *** multiGet *)

Lemma multiGet_fault keys :
  next_fault w = true →
  multiGet keys w
  = (Resolved ((λ key, (key, None)) <$> keys),
     logged (ErrMultiGet SQLiteError) (sent w)).
Proof. revert Hready. by_cases w. Qed.

Lemma multiGet_no_table keys :
  next_fault w = false → disk w = None →
  multiGet keys w
  = (Resolved ((λ key, (key, None)) <$> keys),
     logged (ErrMultiGet SQLiteError) (sent w)).
Proof. revert Hready. by_cases w; intros _ _ ->; reflexivity. Qed.

Lemma multiGet_ok keys t :
  next_fault w = false → disk w = Some t →
  multiGet keys w
  = (Resolved ((λ key, (key, or_null (Map_new (select_in keys t) !! key))) <$> keys),
     sent w).
Proof. revert Hready. by_cases w; intros _ _ [= ->]; reflexivity. Qed.

(** *** multiRemove *)

Lemma multiRemove_fault keys :
  next_fault w = true →
  multiRemove keys w
  = (Rejected SQLiteError, logged (ErrMultiRemove SQLiteError) (sent w)).
Proof. revert Hready. by_cases w. Qed.

Lemma multiRemove_no_table keys :
  next_fault w = false → disk w = None →
  multiRemove keys w
  = (Rejected SQLiteError, logged (ErrMultiRemove SQLiteError) (sent w)).
Proof. revert Hready. by_cases w; intros _ _ ->; reflexivity. Qed.

Lemma multiRemove_ok keys t :
  next_fault w = false → disk w = Some t →
  multiRemove keys w = (Resolved (), set_disk (Some (delete_in keys t)) (sent w)).
Proof. revert Hready. by_cases w; intros _ _ [= ->]; reflexivity. Qed.

(** *** getAllKeys *)

Lemma getAllKeys_fault :
  next_fault w = true →
  getAllKeys w = (Resolved [], logged (ErrGetAllKeys SQLiteError) (sent w)).
Proof. revert Hready. by_cases w. Qed.

Lemma getAllKeys_no_table :
  next_fault w = false → disk w = None →
  getAllKeys w = (Resolved [], logged (ErrGetAllKeys SQLiteError) (sent w)).
Proof. revert Hready. by_cases w; intros _ _ ->; reflexivity. Qed.

Lemma getAllKeys_ok t :
  next_fault w = false → disk w = Some t →
  getAllKeys w = (Resolved (select_keys t), sent w).
Proof. revert Hready. by_cases w; intros _ _ [= ->]; reflexivity. Qed.

(** *** clear *)

Lemma clear_fault :
  next_fault w = true →
  clear w = (Rejected SQLiteError, logged (ErrClear SQLiteError) (sent w)).
Proof. revert Hready. by_cases w. Qed.

Lemma clear_no_table :
  next_fault w = false → disk w = None →
  clear w = (Rejected SQLiteError, logged (ErrClear SQLiteError) (sent w)).
Proof. revert Hready. by_cases w; intros _ _ ->; reflexivity. Qed.

Lemma clear_ok t :
  next_fault w = false → disk w = Some t →
  clear w = (Resolved (), logged LogCleared (set_disk (Some ∅) (sent w))).
Proof. revert Hready. by_cases w; intros _ _ [= ->]; reflexivity. Qed.

(** *** getStorageSize *)

Lemma getStorageSize_fault :
  next_fault w = true →
  getStorageSize w = (Resolved 0, logged (ErrGetStorageSize SQLiteError) (sent w)).
Proof. revert Hready. by_cases w. Qed.

Lemma getStorageSize_no_table :
  next_fault w = false → disk w = None →
  getStorageSize w = (Resolved 0, logged (ErrGetStorageSize SQLiteError) (sent w)).
Proof. revert Hready. by_cases w; intros _ _ ->; reflexivity. Qed.

Lemma getStorageSize_ok t :
  next_fault w = false → disk w = Some t →
  getStorageSize w = (Resolved (Z.of_nat (size t)), sent w).
Proof. revert Hready. by_cases w; intros _ _ [= ->]; reflexivity. Qed.
End OneStatement.

(** ** The table operations *)

Lemma upsert_lookup_eq key val now (t : Table) :
  upsert key val now t !! key
  = Some (mkRow val (from_option created_at 0 (t !! key)) now).
Proof.
  unfold upsert. destruct (t !! key) as [r|]; by rewrite lookup_insert_eq.
Qed.

Lemma upsert_lookup_ne key val now (t : Table) k :
  key ≠ k → upsert key val now t !! k = t !! k.
Proof.
  intros Hne. unfold upsert. destruct (t !! key) as [r|]; by rewrite lookup_insert_ne.
Qed.

Lemma upsert_size key val now (t : Table) :
  size (upsert key val now t) = if decide (key ∈ dom t) then size t else S (size t).
Proof.
  unfold upsert. destruct (t !! key) as [r|] eqn:Hk.
  - rewrite decide_True by (apply elem_of_dom; eauto).
    apply map_size_insert_Some. eauto.
  - rewrite decide_False by (by apply not_elem_of_dom).
    by apply map_size_insert_None.
Qed.

Lemma delete_in_lookup keys (t : Table) k :
  delete_in keys t !! k = if decide (k ∈ keys) then None else t !! k.
Proof.
  unfold delete_in. rewrite map_lookup_filter. destruct (t !! k) as [r|]; simpl.
  - case_decide; case_guard; simpl in *; done.
  - by case_decide.
Qed.

Lemma upsert_all_lookup_ne now kvs (t : Table) k :
  k ∉ kvs.*1 → upsert_all now kvs t !! k = t !! k.
Proof.
  revert t. induction kvs as [|[k' v'] kvs IH]; intros t Hk; [done|].
  cbn in *. apply not_elem_of_cons in Hk as [Hne Hk].
  unfold upsert_all in *. cbn. rewrite IH by done. by apply upsert_lookup_ne.
Qed.

(** ** Map_new *)
Lemma Map_new_app l1 l2 :
  Map_new (l1 ++ l2) = foldl (λ m kv, <[kv.1 := kv.2]> m) (Map_new l1) l2.
Proof. unfold Map_new. by rewrite foldl_app. Qed.

Lemma Map_new_lookup_unique (entries : list (string * string)) k :
  NoDup entries.*1 →
  Map_new entries !! k = (list_to_map entries : gmap string string) !! k.
Proof.
  induction entries as [|[k' v'] entries IH] using rev_ind; [done|].
  rewrite fmap_app. cbn. intros Hnd.
  apply NoDup_app in Hnd as (Hnd1 & Hdisj & _).
  rewrite Map_new_app. cbn.
  destruct (decide (k' = k)) as [->|Hne].
  - rewrite lookup_insert_eq. symmetry. apply elem_of_list_to_map.
    + rewrite fmap_app. cbn. apply NoDup_app. split_and!; [done| |apply NoDup_singleton].
      intros x Hx. specialize (Hdisj x Hx). done.
    + apply elem_of_app. right. by apply list_elem_of_singleton.
  - rewrite lookup_insert_ne by done. rewrite IH by done.
    destruct (list_to_map entries !! k) as [v|] eqn:Hl.
    + symmetry. apply elem_of_list_to_map.
      * rewrite fmap_app. cbn. apply NoDup_app. split_and!; [done| |apply NoDup_singleton].
        intros x Hx. specialize (Hdisj x Hx). done.
      * apply elem_of_app. left. by apply elem_of_list_to_map.
    + symmetry. apply not_elem_of_list_to_map. rewrite fmap_app. cbn.
      apply not_elem_of_app. split.
      * by apply not_elem_of_list_to_map.
      * by intros ?%list_elem_of_singleton.
Qed.

Lemma select_in_keys_unique keys (t : Table) : NoDup (select_in keys t).*1.
Proof.
  unfold select_in. rewrite <- list_fmap_compose.
  change (fst ∘ (λ kr : string * Row, (kr.1, value kr.2))) with (@fst string Row).
  apply (sublist_NoDup _ ((map_to_list t).*1)); [apply NoDup_fst_map_to_list|].
  apply fmap_sublist, sublist_filter.
Qed.

Lemma elem_of_select_in keys (t : Table) k v :
  (k, v) ∈ select_in keys t ↔ k ∈ keys ∧ value <$> t !! k = Some v.
Proof.
  unfold select_in. rewrite list_elem_of_fmap. split.
  - intros ([k' r] & [= -> ->] & Hin). apply list_elem_of_filter in Hin as [Hk Hin].
    apply elem_of_map_to_list in Hin. cbn in *. by rewrite Hin.
  - intros [Hk Hv]. destruct (t !! k) as [r|] eqn:Hr; [|done].
    injection Hv as <-. exists (k, r). split; [done|].
    apply list_elem_of_filter. split; [done|]. by apply elem_of_map_to_list.
Qed.

Lemma select_in_lookup keys (t : Table) k :
  Map_new (select_in keys t) !! k
  = if decide (k ∈ keys) then value <$> t !! k else None.
Proof.
  rewrite Map_new_lookup_unique by apply select_in_keys_unique.
  destruct (list_to_map (select_in keys t) !! k) as [v|] eqn:Hl.
  - apply elem_of_list_to_map in Hl; [|apply select_in_keys_unique].
    apply elem_of_select_in in Hl as [Hk Hv]. by rewrite decide_True.
  - case_decide as Hk; [|done].
    destruct (t !! k) as [r|] eqn:Hr; [|done]. cbn.
    apply not_elem_of_list_to_map in Hl. exfalso. apply Hl.
    apply list_elem_of_fmap. exists (k, value r). split; [done|].
    apply elem_of_select_in. by rewrite Hr.
Qed.

(** ** Transactions *)

Lemma withTransactionAsync_run h (task : Async unit) w :
  journal w = None →
  (∀ w1, journal (task w1).2 = journal w1) →
  withTransactionAsync h task w
  = if next_fault w then (Rejected SQLiteError, sent w)
    else match task (set_journal (Some (disk w)) (sent w)) with
         | (Rejected e, w2) => (Rejected e, set_journal None (set_disk (disk w) w2))
         | (Resolved _, w2) =>
             if next_fault w2
             then (Rejected SQLiteError, set_journal None (set_disk (disk w) (sent w2)))
             else (Resolved (), set_journal None (sent w2))
         end.
Proof.
  intros Hj Htask.
  unfold withTransactionAsync, try_catch, mbind, Async_bind, await, BEGIN.
  destruct (next_fault w) eqn:Hf.
  - unfold ROLLBACK, throw. cbn. rewrite Hj. reflexivity.
  - fold (sent w). assert (Hjs : journal (sent w) = None) by (by destruct w).
    rewrite Hjs.
    pose proof (Htask (set_journal (Some (disk (sent w))) (sent w))) as Hj2.
    replace (disk (sent w)) with (disk w) in * by (by destruct w).
    destruct (task (set_journal (Some (disk w)) (sent w))) as [[[]|e] w2]; cbn in Hj2.
    + unfold COMMIT. destruct (next_fault w2) eqn:Hf2.
      * unfold ROLLBACK, throw. cbn. rewrite Hj2. reflexivity.
      * fold (sent w2). cbn. rewrite Hj2. reflexivity.
    + unfold ROLLBACK, throw. rewrite Hj2. reflexivity.
Qed.

Lemma calm_S n w : calm (S n) w ↔ next_fault w = false ∧ calm n (sent w).
Proof.
  unfold calm, next_fault. destruct w as [d j [|b fs] c l h r]; cbn.
  - rewrite take_nil. split; [by split|]. intros; constructor.
  - rewrite Forall_cons. done.
Qed.

Lemma calm_0 w : calm 0 w.
Proof. unfold calm. rewrite take_0. constructor. Qed.

Lemma upsert_pair_run now kv w h :
  db w = Some h →
  upsert_pair now kv w
  = if next_fault w then (Rejected SQLiteError, sent w)
    else match disk w with
         | Some t => (Resolved (), set_disk (Some (upsert kv.1 kv.2 now t)) (sent w))
         | None => (Rejected SQLiteError, sent w)
         end.
Proof.
  unfold upsert_pair. destruct w as [d j [|[|] fs] c l dbh r]; async_unfold;
    intros ->; destruct d; reflexivity.
Qed.

Lemma for_of_upsert_run now kvs h : ∀ w,
  db w = Some h →
  ∃ o w', for_of kvs (upsert_pair now) w = (o, w')
    ∧ journal w' = journal w ∧ db w' = db w ∧ ready w' = ready w
    ∧ clock w' = clock w ∧ console w' = console w
    ∧ match o with
      | Resolved _ => calm (length kvs) w
                      ∧ disk w' = upsert_all now kvs <$> disk w
                      ∧ faults w' = drop (length kvs) (faults w)
      | Rejected e => e = SQLiteError ∧ (¬ calm (length kvs) w ∨ disk w = None)
      end.
Proof.
  induction kvs as [|kv kvs IH]; intros w Hdb.
  - exists (Resolved ()), w. cbn. split_and!; try done.
    + apply calm_0.
    + by destruct (disk w).
  - cbn [for_of length]. unfold mbind, Async_bind, await.
    rewrite (upsert_pair_run _ _ _ h) by done.
    destruct (next_fault w) eqn:Hf.
    { exists (Rejected SQLiteError), (sent w). split_and!; try (by destruct w).
      left. rewrite calm_S. intros [? _]. congruence. }
    destruct (disk w) as [t|] eqn:Hd.
    2:{ exists (Rejected SQLiteError), (sent w). split_and!; try (by destruct w). by right. }
    set (w1 := set_disk _ _).
    destruct (IH w1) as (o & w' & Hrun & Hj & Hdb' & Hr & Hc & Hl & Ho).
    { by destruct w. }
    exists o, w'. rewrite Hrun. split_and!.
    + done.
    + rewrite Hj. by destruct w.
    + rewrite Hdb'. by destruct w.
    + rewrite Hr. by destruct w.
    + rewrite Hc. by destruct w.
    + rewrite Hl. by destruct w.
    + destruct o as [[]|e].
      * destruct Ho as (Hcalm & Hdisk & Hfs). split_and!.
        -- apply calm_S. split; [done|]. by destruct w.
        -- rewrite Hdisk. by destruct w.
        -- rewrite Hfs. destruct w as [? ? [|? ?] ? ? ? ?]; cbn; [by rewrite drop_nil|done].
      * destruct Ho as (-> & Ho). split; [done|]. left. rewrite calm_S.
        intros [_ Hcalm]. destruct Ho as [Ho|Ho].
        -- apply Ho. by destruct w.
        -- by destruct w.
Qed.

Lemma tail_drop {A} n (l : list A) : tail (drop n l) = drop (S n) l.
Proof.
  revert l. induction n as [|n IH]; intros [|x l]; cbn; try done.
  all: first [by rewrite drop_0 | by rewrite drop_nil | apply IH].
Qed.

Lemma calm_mono n m w : (n ≤ m)%nat → calm m w → calm n w.
Proof.
  unfold calm. intros Hle Hm.
  replace n with (n `min` m)%nat by lia. rewrite <- take_take. by apply Forall_take.
Qed.

Lemma calm_faults n w w' : faults w' = faults w → calm n w' ↔ calm n w.
Proof. unfold calm. by intros ->. Qed.

Lemma calm_snoc n w w' :
  faults w' = drop n (faults w) →
  calm (S n) w ↔ calm n w ∧ next_fault w' = false.
Proof.
  unfold calm, next_fault. intros ->. generalize (faults w) as fs. clear.
  induction n as [|n IH]; intros fs.
  - rewrite take_0, drop_0. destruct fs as [|b fs]; cbn.
    + split; [done|]. intros; constructor.
    + rewrite take_0, Forall_cons. split; [intros [? _]; split; [constructor|done]|].
      intros [_ ->]. split; [done|constructor].
  - destruct fs as [|b fs]; cbn [take drop].
    + split; [done|]. intros; constructor.
    + rewrite !Forall_cons, IH. tauto.
Qed.

Lemma multiSet_unfold kvs :
  multiSet kvs
  = (ensureReady ;;
     try_catch
       (ms ← Date_now;
        h ← this_db;
        withTransactionAsync h (for_of kvs (upsert_pair (Math_floor_div ms 1000))))
       (λ error, console_error (ErrMultiSet error) ;; throw error)).
Proof. reflexivity. Qed.

Lemma for_of_upsert_journal now kvs w :
  journal (for_of kvs (upsert_pair now) w).2 = journal w.
Proof.
  revert w. induction kvs as [|kv kvs IH]; intros w; [done|].
  cbn [for_of]. unfold mbind, Async_bind, await.
  destruct (upsert_pair now kv w) as [[[]|e] w1] eqn:Hstep.
  - rewrite IH. revert Hstep. unfold upsert_pair. by_cases w; destruct d; intros [= <-]; done.
  - cbn. revert Hstep. unfold upsert_pair. by_cases w; try destruct d; intros [= <- <-]; done.
Qed.

Lemma multiSet_run kvs w :
  is_ready w → journal w = None →
  ∃ o w', multiSet kvs w = (o, w')
    ∧ journal w' = None ∧ db w' = db w ∧ ready w' = ready w ∧ clock w' = clock w
    ∧ match o with
      | Resolved _ =>
          calm (S (S (length kvs))) w
          ∧ disk w' = upsert_all (clock w `div` 1000) kvs <$> disk w
          ∧ console w' = console w
          ∧ faults w' = drop (S (S (length kvs))) (faults w)
      | Rejected e =>
          disk w' = disk w
          ∧ (¬ calm (S (S (length kvs))) w ∨ disk w = None)
      end.
Proof.
  intros Hready Hj. rewrite multiSet_unfold.
  unfold mbind at 1. unfold Async_bind, await. rewrite ensureReady_ok by done.
  destruct Hready as [Hr Hdb]. destruct (db w) as [h|] eqn:Hh; [clear Hdb|done].
  unfold try_catch, mbind, Async_bind, await, Date_now, get, this_db.
  rewrite Hh. unfold Math_floor_div.
  rewrite withTransactionAsync_run; [|done|apply for_of_upsert_journal].
  destruct (next_fault w) eqn:Hf.
  { eexists _, _. split; [reflexivity|]. cbn.
    split_and!; try (by destruct w). left. rewrite calm_S. intros [? _]. congruence. }
  set (w1 := set_journal _ _).
  destruct (for_of_upsert_run (clock w `div` 1000) kvs h w1)
    as (o & w2 & Hrun & Hj2 & Hdb2 & Hr2 & Hc2 & Hl2 & Ho); [by destruct w|].
  rewrite Hrun.
  assert (Hw1 : faults w1 = faults (sent w)) by done.
  destruct o as [[]|e].
  - destruct Ho as (Hcalm & Hdisk & Hfs).
    destruct (next_fault w2) eqn:Hf2.
    + eexists _, _. split; [reflexivity|]. cbn.
      rewrite Hdb2, Hr2, Hc2. split_and!; try (by destruct w).
      left. rewrite calm_S. intros [_ Hc]. rewrite <- (calm_faults _ _ w1) in Hc by done.
      apply (calm_snoc _ _ w2) in Hc; [|done]. destruct Hc. congruence.
    + eexists _, _. split; [reflexivity|]. cbn.
      rewrite Hdb2, Hr2, Hc2, Hl2, Hdisk. split_and!; try (by destruct w).
      * rewrite calm_S. split; [done|]. rewrite <- (calm_faults _ _ w1) by done.
        by apply (calm_snoc _ _ w2).
      * rewrite Hfs. destruct w as [? ? [|? fs] ? ? ? ?]; cbn.
        -- by rewrite drop_nil.
        -- apply tail_drop.
  - destruct Ho as (-> & Ho). eexists _, _. split; [reflexivity|]. cbn.
    rewrite Hdb2, Hr2, Hc2. split_and!; try (by destruct w).
    destruct Ho as [Ho|Ho]; [left|right; by destruct w].
    rewrite calm_S. intros [_ Hc]. rewrite <- (calm_faults _ _ w1) in Hc by done.
    apply Ho. by apply (calm_mono _ (S (length kvs))); [lia|].
Qed.

(** ** Before init *)

Section NotReady.
Context (w : World) (Hnot : ready w = false ∨ db w = None).

Ltac not_ready := revert Hnot; by_cases w.

Lemma getItem_not_ready key : getItem key w = (Rejected NotInitialized, w).
Proof. not_ready. Qed.
Lemma setItem_not_ready key val : setItem key val w = (Rejected NotInitialized, w).
Proof. not_ready. Qed.
Lemma removeItem_not_ready key : removeItem key w = (Rejected NotInitialized, w).
Proof. not_ready. Qed.
Lemma multiGet_not_ready keys : multiGet keys w = (Rejected NotInitialized, w).
Proof. not_ready. Qed.
Lemma multiSet_not_ready kvs : multiSet kvs w = (Rejected NotInitialized, w).
Proof. not_ready. Qed.
Lemma multiRemove_not_ready keys : multiRemove keys w = (Rejected NotInitialized, w).
Proof. not_ready. Qed.
Lemma getAllKeys_not_ready : getAllKeys w = (Rejected NotInitialized, w).
Proof. not_ready. Qed.
Lemma clear_not_ready : clear w = (Rejected NotInitialized, w).
Proof. not_ready. Qed.
Lemma getStorageSize_not_ready : getStorageSize w = (Rejected NotInitialized, w).
Proof. not_ready. Qed.
End NotReady.

Lemma not_is_ready w : ¬ is_ready w → ready w = false ∨ db w = None.
Proof.
  unfold is_ready. destruct (ready w), (db w); intros H; auto.
  exfalso. apply H. done.
Qed.

(** ** init *)

Lemma init_ok w :
  calm 2 w →
  init w = (Resolved (),
            mkWorld (Some (default ∅ (disk w))) (journal w) (drop 2 (faults w))
                    (clock w) (console w ++ [LogInitializing; LogInitialized])
                    (Some (Connection "instantdb-storage.db")) true).
Proof.
  intros Hcalm. apply calm_S in Hcalm as [Hf1 Hcalm]. apply calm_S in Hcalm as [Hf2 _].
  destruct w as [d j [|b1 [|b2 fs]] c l h r]; cbn in Hf1, Hf2; subst;
    async_unfold; destruct d; cbn; by rewrite <- ?(assoc_L (++)).
Qed.

Lemma init_effect w :
  journal (init w).2 = journal w
  ∧ clock (init w).2 = clock w
  ∧ (is_ready w → is_ready (init w).2)
  ∧ (is_Some (disk w) → is_Some (disk (init w).2))
  ∧ (∀ k, stored (init w).2 k = stored w k).
Proof.
  destruct w as [d j [|b1 [|b2 fs]] c l h r]; try destruct b1; try destruct b2;
    async_unfold; destruct d; cbn; split_and!; try done; intros [? ?]; done.
Qed.

(** ** What a call leaves untouched *)

Lemma sent_fields w :
  disk (sent w) = disk w ∧ journal (sent w) = journal w ∧ db (sent w) = db w
  ∧ ready (sent w) = ready w ∧ clock (sent w) = clock w.
Proof. by destruct w. Qed.

Lemma same_store_sent w : same_store w (sent w).
Proof. by destruct w. Qed.
Lemma same_store_logged entry w : same_store w (logged entry (sent w)).
Proof. by destruct w. Qed.
Lemma same_store_refl w : same_store w w.
Proof. done. Qed.

Create HintDb store.
#[local] Hint Resolve same_store_sent same_store_logged same_store_refl : store.

Ltac split_ready w :=
  destruct (decide (is_ready w)) as [Hready|Hnot%not_is_ready].
Ltac split_statement w :=
  destruct (next_fault w) eqn:Hfault; [|destruct (disk w) as [t|] eqn:Hdisk].

Lemma getItem_same_store key w : same_store w (getItem key w).2.
Proof.
  split_ready w; [split_statement w|].
  - rewrite getItem_fault by done. cbn [snd]; auto with store.
  - rewrite (getItem_ok w Hready _ t) by done. cbn [snd]; auto with store.
  - rewrite getItem_no_table by done. cbn [snd]; auto with store.
  - rewrite getItem_not_ready by done. cbn [snd]; auto with store.
Qed.

Lemma multiGet_same_store keys w : same_store w (multiGet keys w).2.
Proof.
  split_ready w; [split_statement w|].
  - rewrite multiGet_fault by done. cbn [snd]; auto with store.
  - rewrite (multiGet_ok w Hready _ t) by done. cbn [snd]; auto with store.
  - rewrite multiGet_no_table by done. cbn [snd]; auto with store.
  - rewrite multiGet_not_ready by done. cbn [snd]; auto with store.
Qed.

Lemma getAllKeys_same_store w : same_store w (getAllKeys w).2.
Proof.
  split_ready w; [split_statement w|].
  - rewrite getAllKeys_fault by done. cbn [snd]; auto with store.
  - rewrite (getAllKeys_ok w Hready t) by done. cbn [snd]; auto with store.
  - rewrite getAllKeys_no_table by done. cbn [snd]; auto with store.
  - rewrite getAllKeys_not_ready by done. cbn [snd]; auto with store.
Qed.

Lemma getStorageSize_same_store w : same_store w (getStorageSize w).2.
Proof.
  split_ready w; [split_statement w|].
  - rewrite getStorageSize_fault by done. cbn [snd]; auto with store.
  - rewrite (getStorageSize_ok w Hready t) by done. cbn [snd]; auto with store.
  - rewrite getStorageSize_no_table by done. cbn [snd]; auto with store.
  - rewrite getStorageSize_not_ready by done. cbn [snd]; auto with store.
Qed.

Lemma updated_same u w w' : same_store w w' → updated u w w'.
Proof. intros (? & ? & ? & ?). split_and!; auto. Qed.

Lemma updated_set_disk u w t :
  disk w = Some t → updated u w (set_disk (Some (u t)) (sent w)).
Proof. intros Hd. split_and!; try (by destruct w). right. eauto. Qed.

Lemma setItem_updated key val w :
  updated (upsert key val (clock w `div` 1000)) w (setItem key val w).2.
Proof.
  split_ready w; [split_statement w|].
  - rewrite setItem_fault by done. cbn [snd]; apply updated_same; auto with store.
  - rewrite (setItem_ok w Hready _ _ t) by done. cbn [snd]. by apply updated_set_disk.
  - rewrite setItem_no_table by done. cbn [snd]; apply updated_same; auto with store.
  - rewrite setItem_not_ready by done. cbn [snd]; apply updated_same; auto with store.
Qed.

Lemma removeItem_updated key w : updated (delete key) w (removeItem key w).2.
Proof.
  split_ready w; [split_statement w|].
  - rewrite removeItem_fault by done. cbn [snd]; apply updated_same; auto with store.
  - rewrite (removeItem_ok w Hready _ t) by done. cbn [snd]. by apply updated_set_disk.
  - rewrite removeItem_no_table by done. cbn [snd]; apply updated_same; auto with store.
  - rewrite removeItem_not_ready by done. cbn [snd]; apply updated_same; auto with store.
Qed.

Lemma multiRemove_updated keys w : updated (delete_in keys) w (multiRemove keys w).2.
Proof.
  split_ready w; [split_statement w|].
  - rewrite multiRemove_fault by done. cbn [snd]; apply updated_same; auto with store.
  - rewrite (multiRemove_ok w Hready _ t) by done. cbn [snd]. by apply updated_set_disk.
  - rewrite multiRemove_no_table by done. cbn [snd]; apply updated_same; auto with store.
  - rewrite multiRemove_not_ready by done. cbn [snd]; apply updated_same; auto with store.
Qed.

Lemma clear_updated w : updated (λ _, ∅) w (clear w).2.
Proof.
  split_ready w; [split_statement w|].
  - rewrite clear_fault by done. cbn [snd]; apply updated_same; auto with store.
  - rewrite (clear_ok w Hready t) by done. cbn [snd]. split_and!; try (by destruct w). right. eauto.
  - rewrite clear_no_table by done. cbn [snd]; apply updated_same; auto with store.
  - rewrite clear_not_ready by done. cbn [snd]; apply updated_same; auto with store.
Qed.

Lemma multiSet_updated kvs w :
  journal w = None →
  updated (upsert_all (clock w `div` 1000) kvs) w (multiSet kvs w).2.
Proof.
  intros Hj. split_ready w.
  - destruct (multiSet_run kvs w Hready Hj) as (o & w' & -> & Hj' & Hdb & Hr & _ & Ho).
    cbn. split_and!; try congruence.
    destruct o as [[]|e].
    + destruct Ho as (_ & Hd & _). destruct (disk w) as [t|]; [right; eauto|by left].
    + left. apply Ho.
  - rewrite multiSet_not_ready by done. cbn [snd]; apply updated_same; auto with store.
Qed.

(** ** Sessions *)

Lemma call_update_frame now c (t : Table) k :
  ¬ writes k c → ¬ removes k c → call_update now c t !! k = t !! k.
Proof.
  destruct c; cbn; intros Hw Hr; try done.
  - by apply upsert_lookup_ne.
  - by apply lookup_delete_ne.
  - by apply upsert_all_lookup_ne.
  - rewrite delete_in_lookup. by rewrite decide_False.
Qed.

Lemma call_update_absent now c (t : Table) k :
  ¬ writes k c → t !! k = None → call_update now c t !! k = None.
Proof.
  destruct c; cbn; intros Hw Hk; try done.
  - by rewrite upsert_lookup_ne.
  - destruct (decide (key = k)) as [->|]; [apply lookup_delete_eq|by rewrite lookup_delete_ne].
  - by rewrite upsert_all_lookup_ne.
  - rewrite delete_in_lookup. by case_decide.
Qed.

Lemma stepped_same c w w' : journal w = None → same_store w w' → stepped c w w'.
Proof.
  intros Hj (Hd & Hj' & Hdb & Hr). unfold stepped, is_ready, stored.
  rewrite Hd, Hj', Hdb, Hr. split_and!; auto.
Qed.

Lemma stepped_updated c w w' :
  journal w = None →
  updated (call_update (clock w `div` 1000) c) w w' → stepped c w w'.
Proof.
  intros Hj (Hj' & Hdb & Hr & Hd). unfold stepped, is_ready, stored.
  rewrite Hj', Hdb, Hr. split_and!; auto.
  - destruct Hd as [->|(t & -> & ->)]; eauto.
  - destruct Hd as [->|(t & -> & ->)]; eauto.
Qed.

Lemma perform_stepped c w : journal w = None → stepped c w (perform c w).
Proof.
  intros Hj. destruct c; cbn [perform].
  - destruct (init_effect w) as (Hj' & _ & Hr & Hd & Hs).
    unfold stepped. rewrite Hj'. split_and!; auto.
  - apply stepped_same, getItem_same_store; done.
  - apply stepped_updated, setItem_updated; done.
  - apply stepped_updated, removeItem_updated; done.
  - apply stepped_same, multiGet_same_store; done.
  - apply stepped_updated, multiSet_updated; done.
  - apply stepped_updated, multiRemove_updated; done.
  - apply stepped_same, getAllKeys_same_store; done.
  - apply stepped_updated, clear_updated; done.
  - apply stepped_same, getStorageSize_same_store; done.
  - apply stepped_same; [done|]. by destruct w.
Qed.

Lemma perform_frame c w k :
  journal w = None → ¬ writes k c → ¬ removes k c →
  stored (perform c w) k = stored w k.
Proof.
  intros Hj Hw Hr. destruct (perform_stepped c w Hj) as (_ & _ & _ & [Hs|(t & Hd & Hd')]).
  - apply Hs.
  - unfold stored. rewrite Hd, Hd'. cbn. by apply call_update_frame.
Qed.

Lemma perform_absent c w k :
  journal w = None → ¬ writes k c → stored w k = None →
  stored (perform c w) k = None.
Proof.
  intros Hj Hw Hk. destruct (perform_stepped c w Hj) as (_ & _ & _ & [Hs|(t & Hd & Hd')]).
  - by rewrite Hs.
  - unfold stored in *. rewrite Hd in Hk. rewrite Hd'. cbn in *.
    by apply call_update_absent.
Qed.

Lemma session_app cs1 cs2 w : session (cs1 ++ cs2) w = session cs2 (session cs1 w).
Proof. unfold session. apply foldl_app. Qed.

Lemma session_cons c cs w : session (c :: cs) w = session cs (perform c w).
Proof. reflexivity. Qed.

Lemma session_idle cs : ∀ w, journal w = None → journal (session cs w) = None.
Proof.
  induction cs as [|c cs IH]; intros w Hj; [done|].
  rewrite session_cons. apply IH. by apply perform_stepped.
Qed.

Lemma session_initialized cs : ∀ w, Initialized w → Initialized (session cs w).
Proof.
  induction cs as [|c cs IH]; intros w (Hr & Hd & Hj); [done|].
  rewrite session_cons. apply IH. destruct (perform_stepped c w Hj) as (? & ? & ? & _).
  split_and!; auto.
Qed.

Lemma session_frame cs k : ∀ w,
  journal w = None →
  Forall (λ c, ¬ writes k c ∧ ¬ removes k c) cs →
  stored (session cs w) k = stored w k.
Proof.
  induction cs as [|c cs IH]; intros w Hj Hcs; [done|].
  apply Forall_cons in Hcs as [[Hw Hr] Hcs]. rewrite session_cons.
  rewrite IH; [by apply perform_frame| by apply perform_stepped | done].
Qed.

Lemma session_absent cs k : ∀ w,
  journal w = None →
  Forall (λ c, ¬ writes k c) cs →
  stored w k = None →
  stored (session cs w) k = None.
Proof.
  induction cs as [|c cs IH]; intros w Hj Hcs Hk; [done|].
  apply Forall_cons in Hcs as [Hw Hcs]. rewrite session_cons.
  apply IH; [by apply perform_stepped | done | by apply perform_absent].
Qed.

(** ** Write, then read *)

Lemma stored_disk w t k : disk w = Some t → stored w k = t !! k.
Proof. unfold stored. by intros ->. Qed.

Lemma Initialized_disk w : Initialized w → ∃ t, disk w = Some t.
Proof. intros (_ & [t Ht] & _). eauto. Qed.

Lemma setItem_ok_initialized key val w t :
  Initialized w → next_fault w = false → disk w = Some t →
  Initialized (setItem key val w).2
  ∧ stored (setItem key val w).2 key
    = Some (mkRow val (from_option created_at 0 (t !! key)) (clock w `div` 1000)).
Proof.
  intros (Hr & Hd & Hj) Hf Ht. rewrite (setItem_ok w Hr key val t) by done. cbn [snd].
  split.
  - destruct w; cbn in *. split_and!; eauto.
  - unfold stored. cbn. apply upsert_lookup_eq.
Qed.

(** C1. After [setItem(k, v)] on an initialized adapter, and any calls that
    neither write nor remove [k] (whether they fail or not), [getItem(k)]
    returns [v]; both statements are taken not to hit a driver fault. *)
Theorem setItem_then_getItem key val cs w :
  Initialized w →
  next_fault w = false →
  Forall (λ c, ¬ writes key c ∧ ¬ removes key c) cs →
  next_fault (session cs (setItem key val w).2) = false →
  (setItem key val w).1 = Resolved ()
  ∧ (getItem key (session cs (setItem key val w).2)).1 = Resolved (Some val).
Proof.
  intros Hinit Hf Hcs Hf'.
  destruct (Initialized_disk w Hinit) as [t Ht].
  destruct (setItem_ok_initialized key val w t Hinit Hf Ht) as [Hinit1 Hrow].
  split.
  { destruct Hinit as (Hr & _). by rewrite (setItem_ok w Hr key val t). }
  set (w1 := (setItem key val w).2) in *.
  pose proof (session_initialized cs w1 Hinit1) as Hinit2.
  destruct (Initialized_disk _ Hinit2) as [t2 Ht2].
  destruct Hinit2 as (Hr2 & _ & _).
  rewrite (getItem_ok _ Hr2 key t2) by done. cbn [fst].
  rewrite <- (stored_disk _ _ key Ht2).
  rewrite session_frame; [|apply Hinit1|done].
  by rewrite Hrow.
Qed.

Lemma ready_world_Initialized t now fs : Initialized (ready_world t now fs).
Proof. unfold Initialized, is_ready. cbn. split_and!; eauto. Qed.

Lemma setItem_then_getItem_witness :
  let cs := [CallSetItem "user" "ann"; CallGetAllKeys; CallRemoveItem "user"] in
  let w := ready_world ∅ 1700000000123 [false; false; true; false] in
  Initialized w
  ∧ next_fault w = false
  ∧ Forall (λ c, ¬ writes "cart" c ∧ ¬ removes "cart" c) cs
  ∧ next_fault (session cs (setItem "cart" "[1,2]" w).2) = false
  ∧ (setItem "cart" "[1,2]" w).1 = Resolved ()
  ∧ (getItem "cart" (session cs (setItem "cart" "[1,2]" w).2)).1
    = Resolved (Some "[1,2]").
Proof.
  intros cs w.
  assert (H1 : Initialized w) by apply ready_world_Initialized.
  assert (H2 : next_fault w = false) by reflexivity.
  assert (H3 : Forall (λ c, ¬ writes "cart" c ∧ ¬ removes "cart" c) cs)
    by (repeat constructor; cbn; try tauto; discriminate).
  assert (H4 : next_fault (session cs (setItem "cart" "[1,2]" w).2) = false)
    by (vm_compute; reflexivity).
  split_and!; [exact H1 | exact H2 | exact H3 | exact H4 | |];
    apply (setItem_then_getItem "cart" "[1,2]" cs w H1 H2 H3 H4).
Defined.

(** ** multiSet *)

Lemma calm_lookup n i w : calm n w → (i < n)%nat → faults w !! i ≠ Some true.
Proof.
  unfold calm. intros Hcalm Hlt Hi.
  rewrite Forall_lookup in Hcalm. specialize (Hcalm i true).
  rewrite lookup_take_lt in Hcalm by done. by specialize (Hcalm Hi).
Qed.

(** C2. [multiSet] sends [BEGIN] (statement 0), then one INSERT per pair
    (pair [i] is statement [S i]), then [COMMIT].  If the statement that
    persists pair [i] fails (or one sent before it), [multiSet] rejects and
    the table is as before the call: no pair of the batch is visible. *)
Theorem multiSet_all_or_nothing kvs i w :
  Initialized w →
  (i < length kvs)%nat →
  faults w !! S i = Some true →
  ∃ e w', multiSet kvs w = (Rejected e, w')
    ∧ disk w' = disk w
    ∧ journal w' = None
    ∧ ∀ k, stored w' k = stored w k.
Proof.
  intros (Hr & Hd & Hj) Hi Hfault.
  destruct (multiSet_run kvs w Hr Hj) as (o & w' & Hrun & Hj' & _ & _ & _ & Ho).
  destruct o as [[]|e].
  - destruct Ho as (Hcalm & _). exfalso.
    apply (calm_lookup _ (S i) _ Hcalm); [lia|done].
  - destruct Ho as (Hdisk & _). exists e, w'. split_and!; try done.
    intros k. unfold stored. by rewrite Hdisk.
Qed.

Lemma multiSet_all_or_nothing_witness :
  let kvs := [("a", "1"); ("b", "2"); ("c", "3")] in
  let w := ready_world {["a" := mkRow "0" 0 5]} 1700000000123 [false; false; true] in
  Initialized w
  ∧ (1 < length kvs)%nat
  ∧ faults w !! 2%nat = Some true
  ∧ ∃ e w', multiSet kvs w = (Rejected e, w')
      ∧ disk w' = disk w ∧ journal w' = None ∧ ∀ k, stored w' k = stored w k.
Proof.
  intros kvs w.
  assert (H1 : Initialized w) by apply ready_world_Initialized.
  assert (H2 : (1 < length kvs)%nat) by (cbn; lia).
  assert (H3 : faults w !! 2%nat = Some true) by reflexivity.
  split_and!; [exact H1 | exact H2 | exact H3 |].
  apply (multiSet_all_or_nothing kvs 1 w H1 H2 H3).
Defined.

(** A batch whose statements all go through is stored whole. *)
Lemma multiSet_ok kvs w t :
  Initialized w → disk w = Some t → calm (S (S (length kvs))) w →
  ∃ w', multiSet kvs w = (Resolved (), w')
    ∧ Initialized w'
    ∧ disk w' = Some (upsert_all (clock w `div` 1000) kvs t)
    ∧ faults w' = drop (S (S (length kvs))) (faults w).
Proof.
  intros (Hr & Hd & Hj) Ht Hcalm.
  destruct (multiSet_run kvs w Hr Hj) as (o & w' & Hrun & Hj' & Hdb & Hrd & _ & Ho).
  destruct o as [[]|e].
  - destruct Ho as (_ & Hdisk & _ & Hfs). exists w'. rewrite Ht in Hdisk.
    split_and!; try done. unfold Initialized, is_ready.
    rewrite Hdb, Hrd, Hdisk. destruct Hr. split_and!; eauto.
  - destruct Ho as (_ & [Hn|Hn]); [done|congruence].
Qed.

(** ** The readiness guard *)

(** C3. Before [init()] has completed ([ready] is still false, or [db] is
    still null) each of the nine operations rejects with the precondition
    fault, outside its [try], and leaves the world (table, log, everything)
    as it was. *)
Theorem before_init_precondition_fault w :
  ready w = false ∨ db w = None →
  (∀ key, getItem key w = (Rejected NotInitialized, w))
  ∧ (∀ key val, setItem key val w = (Rejected NotInitialized, w))
  ∧ (∀ key, removeItem key w = (Rejected NotInitialized, w))
  ∧ (∀ keys, multiGet keys w = (Rejected NotInitialized, w))
  ∧ (∀ kvs, multiSet kvs w = (Rejected NotInitialized, w))
  ∧ (∀ keys, multiRemove keys w = (Rejected NotInitialized, w))
  ∧ getAllKeys w = (Rejected NotInitialized, w)
  ∧ clear w = (Rejected NotInitialized, w)
  ∧ getStorageSize w = (Rejected NotInitialized, w).
Proof.
  intros Hnot. split_and!; intros.
  - by apply getItem_not_ready.
  - by apply setItem_not_ready.
  - by apply removeItem_not_ready.
  - by apply multiGet_not_ready.
  - by apply multiSet_not_ready.
  - by apply multiRemove_not_ready.
  - by apply getAllKeys_not_ready.
  - by apply clear_not_ready.
  - by apply getStorageSize_not_ready.
Qed.

Lemma before_init_precondition_fault_witness :
  let w := sqliteStorage (Some {["a" := mkRow "1" 0 5]}) 1700000000123 [] in
  (ready w = false ∨ db w = None)
  ∧ getItem "a" w = (Rejected NotInitialized, w)
  ∧ clear w = (Rejected NotInitialized, w).
Proof.
  intros w.
  assert (H : ready w = false ∨ db w = None) by (left; reflexivity).
  pose proof (before_init_precondition_fault w H) as (Hget & _ & _ & _ & _ & _ & _ & Hclear & _).
  split_and!; [exact H | apply Hget | exact Hclear].
Defined.

(** [ready] is only set at the end of a successful [init]: an [init] that
    rejects leaves the adapter as unready as it was. *)
Lemma init_rejected_not_ready w e :
  ready w = false → (init w).1 = Rejected e → ready (init w).2 = false.
Proof.
  destruct w as [d j [|b1 [|b2 fs]] c l h r]; try destruct b1; try destruct b2;
    async_unfold; destruct d; cbn; congruence.
Qed.

(** ** Error policies *)

(** C6. On a driver fault behind the readiness guard: [getItem] resolves to
    null, [multiGet] resolves to a null pair per input key, and [setItem],
    [removeItem], [multiRemove] and [clear] reject with the fault, the table
    unchanged. *)
Theorem error_policies w :
  is_ready w →
  next_fault w = true →
  (∀ key, (getItem key w).1 = Resolved None)
  ∧ (∀ keys, (multiGet keys w).1 = Resolved ((λ key, (key, None)) <$> keys))
  ∧ (∀ key val, (setItem key val w).1 = Rejected SQLiteError
                ∧ disk (setItem key val w).2 = disk w)
  ∧ (∀ key, (removeItem key w).1 = Rejected SQLiteError
            ∧ disk (removeItem key w).2 = disk w)
  ∧ (∀ keys, (multiRemove keys w).1 = Rejected SQLiteError
             ∧ disk (multiRemove keys w).2 = disk w)
  ∧ ((clear w).1 = Rejected SQLiteError ∧ disk (clear w).2 = disk w).
Proof.
  intros Hr Hf. split_and!; intros.
  - by rewrite getItem_fault.
  - by rewrite multiGet_fault.
  - rewrite setItem_fault by done. by destruct w.
  - rewrite removeItem_fault by done. by destruct w.
  - rewrite multiRemove_fault by done. by destruct w.
  - by rewrite clear_fault.
  - rewrite clear_fault by done. by destruct w.
Qed.

Lemma error_policies_witness :
  let w := ready_world {["a" := mkRow "1" 0 5]} 1700000000123 [true] in
  is_ready w
  ∧ next_fault w = true
  ∧ (getItem "a" w).1 = Resolved None
  ∧ (multiGet ["a"; "b"] w).1 = Resolved [("a", None); ("b", None)]
  ∧ (clear w).1 = Rejected SQLiteError.
Proof.
  intros w.
  assert (H1 : is_ready w) by (by split).
  assert (H2 : next_fault w = true) by reflexivity.
  pose proof (error_policies w H1 H2) as (Hget & Hmulti & _ & _ & _ & Hclear & _).
  split_and!; [exact H1 | exact H2 | apply Hget | apply (Hmulti ["a"; "b"]) | exact Hclear].
Defined.

(** C10. On a driver fault behind the readiness guard, [getAllKeys]
    resolves to the empty list and [getStorageSize] resolves to 0, whatever
    is stored. *)
Theorem getAllKeys_getStorageSize_swallow w :
  is_ready w →
  next_fault w = true →
  (getAllKeys w).1 = Resolved [] ∧ (getStorageSize w).1 = Resolved 0.
Proof.
  intros Hr Hf. by rewrite getAllKeys_fault, getStorageSize_fault.
Qed.

Lemma getAllKeys_getStorageSize_swallow_witness :
  let w := ready_world {["a" := mkRow "1" 0 5]} 1700000000123 [true] in
  is_ready w
  ∧ next_fault w = true
  ∧ (getAllKeys w).1 = Resolved [] ∧ (getStorageSize w).1 = Resolved 0.
Proof.
  intros w.
  assert (H1 : is_ready w) by (by split).
  assert (H2 : next_fault w = true) by reflexivity.
  split_and!; [exact H1 | exact H2 | apply (getAllKeys_getStorageSize_swallow w H1 H2)..].
Defined.

(** ** multiGet *)

(** What [multiGet] answers when its statement goes through. *)
Lemma multiGet_ok_lookup keys w t :
  is_ready w → next_fault w = false → disk w = Some t →
  (multiGet keys w).1
  = Resolved ((λ key, (key, or_null (value <$> t !! key))) <$> keys).
Proof.
  intros Hr Hf Ht. rewrite (multiGet_ok w Hr keys t) by done. cbn [fst].
  f_equal. apply list_fmap_ext. intros i key Hi.
  rewrite select_in_lookup, decide_True; [done|].
  by apply list_elem_of_lookup_2 in Hi.
Qed.

(** C7. [multiGet] resolves, fault or not, to one pair per input key, the
    keys in input order; a key with no record gets a null in its place. *)
Theorem multiGet_keeps_order keys w :
  is_ready w →
  ∃ pairs w', multiGet keys w = (Resolved pairs, w')
    ∧ pairs.*1 = keys
    ∧ length pairs = length keys
    ∧ ∀ i key, keys !! i = Some key → stored w key = None →
               pairs !! i = Some (key, None).
Proof.
  intros Hr.
  assert (Hfst : ∀ f : string → option string, ((λ key, (key, f key)) <$> keys).*1 = keys).
  { intros f. rewrite <- list_fmap_compose. apply list_fmap_id. }
  assert (Hnull : ∀ i key, keys !! i = Some key →
            ((λ key, (key, @None string)) <$> keys) !! i = Some (key, None)).
  { intros i key Hi. by rewrite list_lookup_fmap, Hi. }
  destruct (next_fault w) eqn:Hf; [|destruct (disk w) as [t|] eqn:Ht].
  - rewrite multiGet_fault by done. eexists _, _. split; [done|].
    split_and!; [apply (Hfst (λ _, None)) | by rewrite length_fmap | auto].
  - rewrite (multiGet_ok w Hr keys t) by done. eexists _, _. split; [done|].
    split_and!; [apply (Hfst (λ key, or_null _)) | by rewrite length_fmap |].
    intros i key Hi Hk. rewrite list_lookup_fmap, Hi. cbn.
    rewrite select_in_lookup, decide_True by (by apply list_elem_of_lookup_2 in Hi).
    rewrite (stored_disk w t) in Hk by done. by rewrite Hk.
  - rewrite multiGet_no_table by done. eexists _, _. split; [done|].
    split_and!; [apply (Hfst (λ _, None)) | by rewrite length_fmap | auto].
Qed.

Lemma multiGet_keeps_order_witness :
  let w := ready_world {["b" := mkRow "2" 0 5]} 1700000000123 [] in
  is_ready w
  ∧ ∃ pairs w', multiGet ["z"; "b"; "a"; "b"] w = (Resolved pairs, w')
      ∧ pairs.*1 = ["z"; "b"; "a"; "b"]
      ∧ length pairs = 4%nat
      ∧ ∀ i key, ["z"; "b"; "a"; "b"] !! i = Some key → stored w key = None →
                 pairs !! i = Some (key, None).
Proof.
  intros w.
  assert (H1 : is_ready w) by (by split).
  split; [exact H1 | apply (multiGet_keeps_order ["z"; "b"; "a"; "b"] w H1)].
Defined.

(** ** getItem on a key never written *)

(** C8. Start anywhere [key] has no record (a fresh install, say), run any
    session that never writes [key]: once [init()] has completed, [getItem]
    on [key] resolves to null, whether the driver faults or not. *)
Theorem getItem_never_written key cs w0 :
  journal w0 = None →
  stored w0 key = None →
  Forall (λ c, ¬ writes key c) cs →
  is_ready (session cs w0) →
  (getItem key (session cs w0)).1 = Resolved None.
Proof.
  intros Hj Hk Hcs Hr.
  pose proof (session_absent cs key w0 Hj Hcs Hk) as Hk'.
  set (w := session cs w0) in *.
  destruct (next_fault w) eqn:Hf; [|destruct (disk w) as [t|] eqn:Ht].
  - by rewrite getItem_fault.
  - rewrite (getItem_ok w Hr key t) by done.
    rewrite (stored_disk w t) in Hk' by done. by rewrite Hk'.
  - by rewrite getItem_no_table.
Qed.

Lemma getItem_never_written_witness :
  let cs := [CallInit; CallSetItem "a" "1"; CallMultiSet [("b", "2"); ("c", "3")];
             CallRemoveItem "k"; CallGetItem "k"] in
  let w0 := sqliteStorage None 1700000000123 [false; false; false; true] in
  journal w0 = None
  ∧ stored w0 "k" = None
  ∧ Forall (λ c, ¬ writes "k" c) cs
  ∧ is_ready (session cs w0)
  ∧ (getItem "k" (session cs w0)).1 = Resolved None.
Proof.
  intros cs w0.
  assert (H1 : journal w0 = None) by reflexivity.
  assert (H2 : stored w0 "k" = None) by reflexivity.
  assert (H3 : Forall (λ c, ¬ writes "k" c) cs).
  { apply (bool_decide_unpack _). vm_compute. exact I. }
  assert (H4 : is_ready (session cs w0)) by (apply (bool_decide_unpack _); vm_compute; exact I).
  split_and!; [exact H1 | exact H2 | exact H3 | exact H4 |].
  apply (getItem_never_written "k" cs w0 H1 H2 H3 H4).
Defined.

(** ** getStorageSize *)

(** C9. With its statement going through, [getStorageSize] is the number
    of distinct keys stored; a [setItem] on a stored key leaves it as it is,
    a [setItem] on a fresh key adds one. *)
Theorem getStorageSize_counts_keys w t :
  Initialized w →
  disk w = Some t →
  next_fault w = false →
  (getStorageSize w).1 = Resolved (Z.of_nat (size (dom t)))
  ∧ ∀ key val,
      next_fault (setItem key val w).2 = false →
      (setItem key val w).1 = Resolved ()
      ∧ (getStorageSize (setItem key val w).2).1
        = Resolved (Z.of_nat (size (dom t)) + if decide (key ∈ dom t) then 0 else 1).
Proof.
  intros Hinit Ht Hf. pose proof Hinit as (Hr & _ & _). split.
  - rewrite (getStorageSize_ok w Hr t) by done. by rewrite size_dom.
  - intros key val Hf'.
    destruct (setItem_ok_initialized key val w t Hinit Hf Ht) as [(Hr1 & _ & _) _].
    revert Hr1 Hf'. rewrite (setItem_ok w Hr key val t) by done. cbn [fst snd].
    intros Hr1 Hf'. split; [done|].
    rewrite (getStorageSize_ok _ Hr1 (upsert key val (clock w `div` 1000) t))
      by (done || by destruct w).
    cbn [fst]. rewrite upsert_size, size_dom. f_equal. case_decide; lia.
Qed.

Lemma getStorageSize_counts_keys_witness :
  let t : Table := {["a" := mkRow "1" 0 5; "b" := mkRow "2" 0 6]} in
  let w := ready_world t 1700000000123 [] in
  Initialized w
  ∧ disk w = Some t
  ∧ next_fault w = false
  ∧ (getStorageSize w).1 = Resolved (Z.of_nat (size (dom t)))
  ∧ (getStorageSize (setItem "a" "9" w).2).1 = Resolved (Z.of_nat (size (dom t)) + 0)
  ∧ (getStorageSize (setItem "c" "3" w).2).1 = Resolved (Z.of_nat (size (dom t)) + 1).
Proof.
  intros t w.
  assert (H1 : Initialized w) by apply ready_world_Initialized.
  assert (H2 : disk w = Some t) by reflexivity.
  assert (H3 : next_fault w = false) by reflexivity.
  pose proof (getStorageSize_counts_keys w t H1 H2 H3) as [Hsize Hset].
  split_and!; [exact H1 | exact H2 | exact H3 | exact Hsize | |].
  - destruct (Hset "a" "9") as [_ Ha]; [reflexivity|].
    rewrite decide_True in Ha; [exact Ha|]. apply (bool_decide_unpack _). vm_compute. exact I.
  - destruct (Hset "c" "3") as [_ Hc]; [reflexivity|].
    rewrite decide_False in Hc; [exact Hc|]. apply (bool_decide_unpack _). vm_compute. exact I.
Defined.

(** ** Values read back through multiGet *)

(** What was written with [setItem] comes back from [multiGet] through
    [or_null]: as written when the value is not the empty string. *)
Lemma multiGet_after_setItem key val keys cs w i :
  Initialized w →
  next_fault w = false →
  Forall (λ c, ¬ writes key c ∧ ¬ removes key c) cs →
  next_fault (session cs (setItem key val w).2) = false →
  keys !! i = Some key →
  ∃ pairs, (multiGet keys (session cs (setItem key val w).2)).1 = Resolved pairs
    ∧ pairs !! i = Some (key, or_null (Some val)).
Proof.
  intros Hinit Hf Hcs Hf' Hi.
  destruct (Initialized_disk w Hinit) as [t Ht].
  destruct (setItem_ok_initialized key val w t Hinit Hf Ht) as [Hinit1 Hrow].
  set (w1 := (setItem key val w).2) in *.
  pose proof (session_initialized cs w1 Hinit1) as Hinit2.
  destruct (Initialized_disk _ Hinit2) as [t2 Ht2].
  destruct Hinit2 as (Hr2 & _ & _).
  rewrite (multiGet_ok_lookup keys _ t2) by done.
  eexists. split; [done|]. rewrite list_lookup_fmap, Hi. cbn.
  rewrite <- (stored_disk _ _ key Ht2).
  rewrite session_frame; [|apply Hinit1|done].
  by rewrite Hrow.
Qed.

Lemma or_null_nonempty val : val ≠ "" → or_null (Some val) = Some val.
Proof. intros Hne. cbn. by rewrite decide_False. Qed.

(** C4, at the input where the code departs from it.  An empty string
    written with [setItem] is stored, and [getItem] returns it, but
    [multiGet] answers null for its key: [resultMap.get(key) || null] takes
    the empty string for a missing entry. *)
Theorem multiGet_loses_empty_string :
  let w := ready_world ∅ 1700000000123 [] in
  (setItem "draft" "" w).1 = Resolved ()
  ∧ (getItem "draft" (setItem "draft" "" w).2).1 = Resolved (Some "")
  ∧ (multiGet ["draft"] (setItem "draft" "" w).2).1 = Resolved [("draft", None)]
  ∧ (multiGet ["draft"] (multiSet [("draft", "")] w).2).1 = Resolved [("draft", None)].
Proof. vm_compute. split_and!; reflexivity. Qed.

(** ** Timestamps *)

Lemma upsert_created_at key val now (t : Table) :
  (∀ k r, t !! k = Some r → created_at r = 0) →
  ∀ k r, upsert key val now t !! k = Some r → created_at r = 0.
Proof.
  intros Ht k r. destruct (decide (key = k)) as [->|Hne].
  - rewrite upsert_lookup_eq. intros [= <-]. cbn.
    destruct (t !! k) as [r0|] eqn:Hk; cbn; eauto.
  - rewrite upsert_lookup_ne by done. apply Ht.
Qed.

Lemma call_update_created_at now c (t : Table) :
  (∀ k r, t !! k = Some r → created_at r = 0) →
  ∀ k r, call_update now c t !! k = Some r → created_at r = 0.
Proof.
  destruct c; cbn; try done.
  - apply upsert_created_at.
  - intros Ht k r [_ Hk]%lookup_delete_Some. eauto.
  - revert t. induction keyValuePairs as [|kv kvs IH]; intros t Ht; [done|].
    apply (IH (upsert kv.1 kv.2 now t)). by apply upsert_created_at.
  - intros Ht k r. rewrite delete_in_lookup. case_decide; [done|apply Ht].
Qed.

(** On a device that starts without the table, no session ever stores a
    record whose [created_at] is anything but the column default. *)
Lemma session_created_at cs : ∀ w,
  journal w = None →
  (∀ k r, stored w k = Some r → created_at r = 0) →
  ∀ k r, stored (session cs w) k = Some r → created_at r = 0.
Proof.
  induction cs as [|c cs IH]; intros w Hj Hw; [done|].
  rewrite session_cons. destruct (perform_stepped c w Hj) as (Hj' & _ & _ & Hs).
  apply IH; [done|]. destruct Hs as [Hs|(t & Hd & Hd')].
  - intros k r. rewrite Hs. apply Hw.
  - intros k r. unfold stored. rewrite Hd'. cbn.
    apply call_update_created_at. intros k' r' Hk'. apply (Hw k').
    unfold stored. by rewrite Hd.
Qed.

(** A write stamps [updated_at] with the clock, in whole seconds, and keeps
    the [created_at] the record had. *)
Lemma setItem_timestamps key val w t :
  Initialized w → next_fault w = false → disk w = Some t →
  ∃ r, stored (setItem key val w).2 key = Some r
    ∧ updated_at r = clock w `div` 1000
    ∧ created_at r = from_option created_at 0 (t !! key).
Proof.
  intros Hinit Hf Ht.
  destruct (setItem_ok_initialized key val w t Hinit Hf Ht) as [_ Hrow].
  eexists. split; [exact Hrow|done].
Qed.

(** C5, at the input where the code departs from it.  A record created at
    1700000000 and rewritten a minute later has [updated_at] refreshed to
    1700000060, but its [created_at] is 0, the column default: the INSERT
    never supplies a creation time. *)
Theorem created_at_is_never_stamped :
  let w0 := sqliteStorage None 1700000000123 [] in
  stored (session [CallInit; CallSetItem "k" "v"] w0) "k"
  = Some (mkRow "v" 0 1700000000)
  ∧ stored (session [CallInit; CallSetItem "k" "v"; Elapse 60000; CallSetItem "k" "w"] w0) "k"
    = Some (mkRow "w" 0 1700000060)
  ∧ stored (session [CallInit; CallMultiSet [("k", "v")]] w0) "k"
    = Some (mkRow "v" 0 1700000000).
Proof. vm_compute. split_and!; reflexivity. Qed.

(** * Further properties of the adapter *)

(** ** The order of keys *)

Lemma ascii_compare_eq a b : Ascii.compare a b = Eq → a = b.
Proof.
  unfold Ascii.compare. intros H%N.compare_eq.
  rewrite <- (ascii_N_embedding a), <- (ascii_N_embedding b). by rewrite H.
Qed.

Lemma ascii_compare_lt_trans a b c :
  Ascii.compare a b = Lt → Ascii.compare b c = Lt → Ascii.compare a c = Lt.
Proof.
  unfold Ascii.compare. rewrite !N.compare_lt_iff. lia.
Qed.

Lemma string_compare_lt_trans s1 : ∀ s2 s3,
  String.compare s1 s2 = Lt → String.compare s2 s3 = Lt → String.compare s1 s3 = Lt.
Proof.
  induction s1 as [|a s1 IH]; intros [|b s2] [|c s3]; cbn; try done.
  destruct (Ascii.compare a b) eqn:Hab; try done;
    destruct (Ascii.compare b c) eqn:Hbc; try done; intros H12 H23.
  - apply ascii_compare_eq in Hab as ->. apply ascii_compare_eq in Hbc as ->.
    assert (Hcc : Ascii.compare c c = Eq) by (unfold Ascii.compare; apply N.compare_refl).
    rewrite Hcc. eauto.
  - apply ascii_compare_eq in Hab as ->. by rewrite Hbc.
  - apply ascii_compare_eq in Hbc as ->. by rewrite Hab.
  - by rewrite (ascii_compare_lt_trans a b c).
Qed.

#[global] Instance key_le_total : Total key_le.
Proof.
  intros a b. unfold key_le. destruct (String.leb_total a b) as [->| ->]; [left|right]; done.
Qed.

Lemma key_le_compare a b : key_le a b ↔ String.compare a b ≠ Gt.
Proof.
  unfold key_le, String.leb. destruct (String.compare a b); cbn; split; try done.
Qed.

#[global] Instance key_le_trans : Transitive key_le.
Proof.
  intros a b c. rewrite !key_le_compare. intros Hab Hbc.
  destruct (String.compare a b) eqn:H1; [|clear Hab|done].
  { by apply String.compare_eq_iff in H1 as ->. }
  destruct (String.compare b c) eqn:H2; [|clear Hbc|done].
  { apply String.compare_eq_iff in H2 as <-. by rewrite H1. }
  by rewrite (string_compare_lt_trans a b c).
Qed.

Lemma select_keys_spec (t : Table) :
  StronglySorted key_le (select_keys t)
  ∧ NoDup (select_keys t)
  ∧ (∀ k, k ∈ select_keys t ↔ is_Some (t !! k))
  ∧ length (select_keys t) = size t.
Proof.
  unfold select_keys. split_and!.
  - apply StronglySorted_merge_sort; apply _.
  - rewrite merge_sort_Permutation. apply NoDup_fst_map_to_list.
  - intros k. rewrite merge_sort_Permutation.
    rewrite list_elem_of_fmap. split.
    + intros ([k' r] & -> & Hin). apply elem_of_map_to_list in Hin. eauto.
    + intros [r Hr]. exists (k, r). split; [done|]. by apply elem_of_map_to_list.
  - rewrite merge_sort_Permutation, length_fmap. apply length_map_to_list.
Qed.

(** ** init *)

(** X1. [init] on a device without the table creates it empty; on a device
    with the table ([CREATE TABLE IF NOT EXISTS]) it keeps every record.
    Either way, with the two statements going through, it resolves and the
    adapter is ready. *)
Theorem init_keeps_records w :
  calm 2 w →
  journal w = None →
  (init w).1 = Resolved ()
  ∧ Initialized (init w).2
  ∧ disk (init w).2 = Some (default ∅ (disk w))
  ∧ ∀ key, stored (init w).2 key = stored w key.
Proof.
  intros Hcalm Hj. rewrite init_ok by done. cbn [fst snd].
  split_and!; [done| |done|].
  - unfold Initialized, is_ready. cbn. split_and!; eauto.
  - intros key. unfold stored. cbn. destruct (disk w); cbn; [done|apply lookup_empty].
Qed.

Lemma init_keeps_records_witness :
  let w := sqliteStorage (Some {["a" := mkRow "1" 0 5]}) 1700000000123 [] in
  calm 2 w
  ∧ journal w = None
  ∧ (init w).1 = Resolved ()
  ∧ Initialized (init w).2
  ∧ disk (init w).2 = Some (default ∅ (disk w))
  ∧ ∀ key, stored (init w).2 key = stored w key.
Proof.
  intros w.
  assert (H1 : calm 2 w) by (apply (bool_decide_unpack _); vm_compute; exact I).
  assert (H2 : journal w = None) by reflexivity.
  split_and!; [exact H1 | exact H2 |..]; apply (init_keeps_records w H1 H2).
Defined.



(** ** Invariants of a session *)

(** X3. Whatever is called and whatever fails, a ready adapter stays ready,
    its table stays in place and no transaction is left open: no call,
    a failed second [init] included, takes the adapter back. *)
Theorem session_stays_initialized cs w :
  Initialized w → Initialized (session cs w).
Proof. apply session_initialized. Qed.

Lemma session_stays_initialized_witness :
  let cs := [CallInit; CallMultiSet [("a", "1"); ("b", "2")]; CallClear; CallSetItem "c" "3"] in
  let w := ready_world {["a" := mkRow "0" 0 5]} 1700000000123 [true; false; false; true; true] in
  Initialized w ∧ Initialized (session cs w).
Proof.
  intros cs w.
  assert (H1 : Initialized w) by apply ready_world_Initialized.
  split; [exact H1 | apply (session_stays_initialized cs w H1)].
Defined.

(** X4. The four reads leave the table and the adapter's fields as they
    were, whether they succeed, fail or are refused. *)
Theorem reads_change_nothing w :
  (∀ key, same_store w (getItem key w).2)
  ∧ (∀ keys, same_store w (multiGet keys w).2)
  ∧ same_store w (getAllKeys w).2
  ∧ same_store w (getStorageSize w).2.
Proof.
  split_and!; intros.
  - apply getItem_same_store.
  - apply multiGet_same_store.
  - apply getAllKeys_same_store.
  - apply getStorageSize_same_store.
Qed.

(** ** Removing *)

Lemma removeItem_ok_initialized key w t :
  Initialized w → next_fault w = false → disk w = Some t →
  (removeItem key w).1 = Resolved ()
  ∧ Initialized (removeItem key w).2
  ∧ disk (removeItem key w).2 = Some (delete key t).
Proof.
  intros (Hr & Hd & Hj) Hf Ht. rewrite (removeItem_ok w Hr key t) by done. cbn [fst snd].
  split_and!; done.
Qed.

(** X5. After a [removeItem(k)] that went through, and any calls that do
    not write [k] (failing or not), [getItem(k)] resolves to null; a driver
    fault on the read does not change that. *)
Theorem removeItem_then_getItem key cs w :
  Initialized w →
  next_fault w = false →
  Forall (λ c, ¬ writes key c) cs →
  (removeItem key w).1 = Resolved ()
  ∧ (getItem key (session cs (removeItem key w).2)).1 = Resolved None.
Proof.
  intros Hinit Hf Hcs.
  destruct (Initialized_disk w Hinit) as [t Ht].
  destruct (removeItem_ok_initialized key w t Hinit Hf Ht) as (Hres & Hinit1 & Hd1).
  split; [done|].
  set (w1 := (removeItem key w).2) in *.
  assert (Hk : stored w1 key = None).
  { unfold stored. rewrite Hd1. cbn. apply lookup_delete_eq. }
  pose proof (session_absent cs key w1 (proj2 (proj2 Hinit1)) Hcs Hk) as Hk2.
  pose proof (session_initialized cs w1 Hinit1) as (Hr2 & [t2 Ht2] & _).
  destruct (next_fault (session cs w1)) eqn:Hf2.
  - by rewrite getItem_fault.
  - rewrite (getItem_ok _ Hr2 key t2) by done.
    rewrite (stored_disk _ t2) in Hk2 by done. by rewrite Hk2.
Qed.

Lemma removeItem_then_getItem_witness :
  let cs := [CallSetItem "b" "2"; CallGetStorageSize] in
  let w := ready_world {["a" := mkRow "1" 0 5]} 1700000000123 [false; true] in
  Initialized w
  ∧ next_fault w = false
  ∧ Forall (λ c, ¬ writes "a" c) cs
  ∧ (removeItem "a" w).1 = Resolved ()
  ∧ (getItem "a" (session cs (removeItem "a" w).2)).1 = Resolved None.
Proof.
  intros cs w.
  assert (H1 : Initialized w) by apply ready_world_Initialized.
  assert (H2 : next_fault w = false) by reflexivity.
  assert (H3 : Forall (λ c, ¬ writes "a" c) cs)
    by (apply (bool_decide_unpack _); vm_compute; exact I).
  split_and!; [exact H1 | exact H2 | exact H3 |..];
    apply (removeItem_then_getItem "a" cs w H1 H2 H3).
Defined.

(** X6. Removing a key that has no record is not an error: [removeItem]
    resolves and the table is the same. *)
Theorem removeItem_missing_key key w :
  Initialized w →
  next_fault w = false →
  stored w key = None →
  (removeItem key w).1 = Resolved () ∧ disk (removeItem key w).2 = disk w.
Proof.
  intros Hinit Hf Hk.
  destruct (Initialized_disk w Hinit) as [t Ht].
  destruct (removeItem_ok_initialized key w t Hinit Hf Ht) as (Hres & _ & Hd1).
  split; [done|]. rewrite Hd1, Ht. f_equal. apply delete_id.
  by rewrite <- (stored_disk w t).
Qed.

Lemma removeItem_missing_key_witness :
  let w := ready_world {["a" := mkRow "1" 0 5]} 1700000000123 [] in
  Initialized w
  ∧ next_fault w = false
  ∧ stored w "zz" = None
  ∧ (removeItem "zz" w).1 = Resolved () ∧ disk (removeItem "zz" w).2 = disk w.
Proof.
  intros w.
  assert (H1 : Initialized w) by apply ready_world_Initialized.
  assert (H2 : next_fault w = false) by reflexivity.
  assert (H3 : stored w "zz" = None) by reflexivity.
  split_and!; [exact H1 | exact H2 | exact H3 |..];
    apply (removeItem_missing_key "zz" w H1 H2 H3).
Defined.

(** X7. A call touches only the keys it names: whatever the call and
    whether it fails or not, the record of a key it neither writes nor
    removes is the same afterwards. *)
Theorem call_keeps_other_keys c key w :
  journal w = None →
  ¬ writes key c →
  ¬ removes key c →
  stored (perform c w) key = stored w key.
Proof. apply perform_frame. Qed.

Lemma call_keeps_other_keys_witness :
  let c := CallMultiSet [("b", "2"); ("c", "3")] in
  let w := ready_world {["a" := mkRow "1" 0 5]} 1700000000123 [] in
  journal w = None
  ∧ ¬ writes "a" c
  ∧ ¬ removes "a" c
  ∧ stored (perform c w) "a" = stored w "a".
Proof.
  intros c w.
  assert (H1 : journal w = None) by reflexivity.
  assert (H2 : ¬ writes "a" c) by (apply (bool_decide_unpack _); vm_compute; exact I).
  assert (H3 : ¬ removes "a" c) by (apply (bool_decide_unpack _); vm_compute; exact I).
  split_and!; [exact H1 | exact H2 | exact H3 |].
  apply (call_keeps_other_keys c "a" w H1 H2 H3).
Defined.

(** X8. [multiRemove(keys)] that went through has removed the records of
    exactly the listed keys: every other record is as before; with an empty
    list nothing is removed. *)
Theorem multiRemove_removes_listed keys w :
  Initialized w →
  next_fault w = false →
  (multiRemove keys w).1 = Resolved ()
  ∧ (∀ key, stored (multiRemove keys w).2 key
            = if decide (key ∈ keys) then None else stored w key)
  ∧ (keys = [] → disk (multiRemove keys w).2 = disk w).
Proof.
  intros Hinit Hf. destruct (Initialized_disk w Hinit) as [t Ht].
  destruct Hinit as (Hr & _ & _).
  rewrite (multiRemove_ok w Hr keys t) by done. cbn [fst snd].
  split_and!; [done| |].
  - intros key. unfold stored. rewrite Ht. cbn. apply delete_in_lookup.
  - intros ->. cbn. rewrite Ht. f_equal. apply map_eq. intros k.
    rewrite delete_in_lookup. by rewrite decide_False by apply not_elem_of_nil.
Qed.

Lemma multiRemove_removes_listed_witness :
  let w := ready_world {["a" := mkRow "1" 0 5; "b" := mkRow "2" 0 6]} 1700000000123 [] in
  Initialized w
  ∧ next_fault w = false
  ∧ (multiRemove ["a"; "zz"] w).1 = Resolved ()
  ∧ ∀ key, stored (multiRemove ["a"; "zz"] w).2 key
           = if decide (key ∈ ["a"; "zz"]) then None else stored w key.
Proof.
  intros w.
  assert (H1 : Initialized w) by apply ready_world_Initialized.
  assert (H2 : next_fault w = false) by reflexivity.
  split_and!; [exact H1 | exact H2 |..];
    apply (multiRemove_removes_listed ["a"; "zz"] w H1 H2).
Defined.

(** X9. After a [clear()] that went through the store is empty: [getAllKeys]
    resolves to the empty list, [getStorageSize] to 0 and every [getItem] to
    null, whether or not those reads hit a fault. *)
Theorem clear_then_empty w :
  Initialized w →
  next_fault w = false →
  (clear w).1 = Resolved ()
  ∧ (getAllKeys (clear w).2).1 = Resolved []
  ∧ (getStorageSize (clear w).2).1 = Resolved 0
  ∧ ∀ key, (getItem key (clear w).2).1 = Resolved None.
Proof.
  intros Hinit Hf. destruct (Initialized_disk w Hinit) as [t Ht].
  destruct Hinit as (Hr & _ & _).
  rewrite (clear_ok w Hr t) by done. cbn [fst snd].
  set (w1 := logged _ _).
  assert (Hr1 : is_ready w1) by (by destruct w).
  assert (Hd1 : disk w1 = Some ∅) by (by destruct w).
  split_and!; [done|..]; intros; destruct (next_fault w1) eqn:Hf1.
  - by rewrite getAllKeys_fault.
  - by rewrite (getAllKeys_ok w1 Hr1 ∅).
  - by rewrite getStorageSize_fault.
  - by rewrite (getStorageSize_ok w1 Hr1 ∅).
  - by rewrite getItem_fault.
  - by rewrite (getItem_ok w1 Hr1 key ∅).
Qed.

Lemma clear_then_empty_witness :
  let w := ready_world {["a" := mkRow "1" 0 5; "b" := mkRow "2" 0 6]} 1700000000123 [false; true] in
  Initialized w
  ∧ next_fault w = false
  ∧ (clear w).1 = Resolved ()
  ∧ (getAllKeys (clear w).2).1 = Resolved []
  ∧ (getStorageSize (clear w).2).1 = Resolved 0
  ∧ ∀ key, (getItem key (clear w).2).1 = Resolved None.
Proof.
  intros w.
  assert (H1 : Initialized w) by apply ready_world_Initialized.
  assert (H2 : next_fault w = false) by reflexivity.
  split_and!; [exact H1 | exact H2 |..]; apply (clear_then_empty w H1 H2).
Defined.

(** ** Listing and counting *)

(** X10. With its statement going through, [getAllKeys] lists each stored
    key once, in ascending bytewise order, and nothing else. *)
Theorem getAllKeys_lists_stored_keys w t :
  is_ready w →
  next_fault w = false →
  disk w = Some t →
  ∃ keys, (getAllKeys w).1 = Resolved keys
    ∧ StronglySorted key_le keys
    ∧ NoDup keys
    ∧ ∀ key, key ∈ keys ↔ is_Some (stored w key).
Proof.
  intros Hr Hf Ht. rewrite (getAllKeys_ok w Hr t) by done. cbn [fst].
  destruct (select_keys_spec t) as (Hs & Hn & Hk & _).
  eexists. split_and!; try done.
  intros key. rewrite (stored_disk w t) by done. apply Hk.
Qed.

Lemma getAllKeys_lists_stored_keys_witness :
  let t : Table := {["b" := mkRow "2" 0 6; "a" := mkRow "1" 0 5; "B" := mkRow "3" 0 7]} in
  let w := ready_world t 1700000000123 [] in
  is_ready w
  ∧ next_fault w = false
  ∧ disk w = Some t
  ∧ (getAllKeys w).1 = Resolved ["B"; "a"; "b"]
  ∧ ∃ keys, (getAllKeys w).1 = Resolved keys
      ∧ StronglySorted key_le keys
      ∧ NoDup keys
      ∧ ∀ key, key ∈ keys ↔ is_Some (stored w key).
Proof.
  intros t w.
  assert (H1 : is_ready w) by (by split).
  assert (H2 : next_fault w = false) by reflexivity.
  assert (H3 : disk w = Some t) by reflexivity.
  split_and!; [exact H1 | exact H2 | exact H3 | vm_compute; reflexivity |].
  apply (getAllKeys_lists_stored_keys w t H1 H2 H3).
Defined.

(** X11. Counting and listing agree: with both statements going through,
    [getStorageSize] is the length of the list [getAllKeys] returns. *)
Theorem getStorageSize_is_length_of_getAllKeys w :
  Initialized w →
  calm 2 w →
  ∃ n keys, ((n ← getStorageSize; keys ← getAllKeys; mret (n, keys)) w).1
            = Resolved (n, keys)
    ∧ n = Z.of_nat (length keys).
Proof.
  intros Hinit Hcalm. destruct (Initialized_disk w Hinit) as [t Ht].
  destruct Hinit as (Hr & _ & _).
  apply calm_S in Hcalm as [Hf1 Hcalm]. apply calm_S in Hcalm as [Hf2 _].
  unfold mbind, Async_bind, await.
  rewrite (getStorageSize_ok w Hr t) by done.
  assert (Hr1 : is_ready (sent w)) by (by destruct w).
  rewrite (getAllKeys_ok (sent w) Hr1 t) by (done || by destruct w).
  eexists _, _. split; [reflexivity|].
  destruct (select_keys_spec t) as (_ & _ & _ & ->). done.
Qed.

Lemma getStorageSize_is_length_of_getAllKeys_witness :
  let w := ready_world {["b" := mkRow "2" 0 6; "a" := mkRow "1" 0 5]} 1700000000123 [] in
  Initialized w
  ∧ calm 2 w
  ∧ ∃ n keys, ((n ← getStorageSize; keys ← getAllKeys; mret (n, keys)) w).1
              = Resolved (n, keys)
      ∧ n = Z.of_nat (length keys).
Proof.
  intros w.
  assert (H1 : Initialized w) by apply ready_world_Initialized.
  assert (H2 : calm 2 w) by (apply (bool_decide_unpack _); vm_compute; exact I).
  split_and!; [exact H1 | exact H2 |].
  apply (getStorageSize_is_length_of_getAllKeys w H1 H2).
Defined.

(** ** Batches *)

Lemma upsert_all_snoc now kvs kv (t : Table) :
  upsert_all now (kvs ++ [kv]) t = upsert kv.1 kv.2 now (upsert_all now kvs t).
Proof. unfold upsert_all. by rewrite foldl_app. Qed.

Lemma upsert_all_lookup now kvs (t : Table) key :
  upsert_all now kvs t !! key
  = match Map_new kvs !! key with
    | Some v => Some (mkRow v (from_option created_at 0 (t !! key)) now)
    | None => t !! key
    end.
Proof.
  induction kvs as [|[k v] kvs IH] using rev_ind; [done|].
  rewrite upsert_all_snoc, Map_new_app. cbn.
  destruct (decide (k = key)) as [->|Hne].
  - rewrite lookup_insert_eq, upsert_lookup_eq, IH.
    by destruct (Map_new kvs !! key), (t !! key).
  - by rewrite lookup_insert_ne, upsert_lookup_ne.
Qed.

(** X12. A [multiSet] whose statements all go through stores, under each
    key of the batch, the value of the last pair with that key, stamped with
    the time of the call; records of other keys are as before. *)
Theorem multiSet_last_pair_wins kvs w :
  Initialized w →
  calm (S (S (length kvs))) w →
  (multiSet kvs w).1 = Resolved ()
  ∧ ∀ key,
      match Map_new kvs !! key with
      | Some v =>
          ∃ r, stored (multiSet kvs w).2 key = Some r
            ∧ value r = v ∧ updated_at r = clock w `div` 1000
      | None => stored (multiSet kvs w).2 key = stored w key
      end.
Proof.
  intros Hinit Hcalm. destruct (Initialized_disk w Hinit) as [t Ht].
  destruct (multiSet_ok kvs w t Hinit Ht Hcalm) as (w' & -> & _ & Hd & _).
  cbn [fst snd]. split; [done|]. intros key.
  unfold stored. rewrite Hd, Ht. cbn. rewrite upsert_all_lookup.
  destruct (Map_new kvs !! key); eauto.
Qed.

Lemma multiSet_last_pair_wins_witness :
  let kvs := [("a", "1"); ("b", "2"); ("a", "3")] in
  let w := ready_world {["c" := mkRow "0" 0 5]} 1700000000123 [] in
  Initialized w
  ∧ calm 5 w
  ∧ (multiSet kvs w).1 = Resolved ()
  ∧ (value <$> stored (multiSet kvs w).2 "a") = Some "3"
  ∧ ∀ key,
      match Map_new kvs !! key with
      | Some v =>
          ∃ r, stored (multiSet kvs w).2 key = Some r
            ∧ value r = v ∧ updated_at r = clock w `div` 1000
      | None => stored (multiSet kvs w).2 key = stored w key
      end.
Proof.
  intros kvs w.
  assert (H1 : Initialized w) by apply ready_world_Initialized.
  assert (H2 : calm (S (S (length kvs))) w)
    by (apply (bool_decide_unpack _); vm_compute; exact I).
  split_and!; [exact H1 | exact H2 | | vm_compute; reflexivity |];
    apply (multiSet_last_pair_wins kvs w H1 H2).
Defined.

Lemma session_setItems_disk kvs : ∀ w t,
  Initialized w → disk w = Some t → calm (length kvs) w →
  disk (session ((λ kv, CallSetItem kv.1 kv.2) <$> kvs) w)
  = Some (upsert_all (clock w `div` 1000) kvs t).
Proof.
  induction kvs as [|kv kvs IH]; intros w t Hinit Ht Hcalm; [done|].
  cbn [fmap list_fmap length] in *. rewrite session_cons. cbn [perform].
  apply calm_S in Hcalm as [Hf Hcalm].
  destruct (setItem_ok_initialized kv.1 kv.2 w t Hinit Hf Ht) as [Hinit1 _].
  destruct Hinit as (Hr & _ & _).
  revert Hinit1. rewrite (setItem_ok w Hr kv.1 kv.2 t) by done. cbn [snd]. intros Hinit1.
  rewrite (IH _ (upsert kv.1 kv.2 (clock w `div` 1000) t)); [|done|by destruct w|by destruct w].
  by destruct w.
Qed.

(** X13. With no statement failing, and within the same second, a
    [multiSet] leaves the table that one [setItem] per pair, in order, would
    leave. *)
Theorem multiSet_as_setItems kvs w :
  Initialized w →
  calm (S (S (length kvs))) w →
  disk (multiSet kvs w).2
  = disk (session ((λ kv, CallSetItem kv.1 kv.2) <$> kvs) w).
Proof.
  intros Hinit Hcalm. destruct (Initialized_disk w Hinit) as [t Ht].
  destruct (multiSet_ok kvs w t Hinit Ht Hcalm) as (w' & -> & _ & Hd & _).
  cbn [snd]. rewrite Hd. symmetry. apply session_setItems_disk; try done.
  by apply (calm_mono _ (S (S (length kvs)))); [lia|].
Qed.

Lemma multiSet_as_setItems_witness :
  let kvs := [("a", "1"); ("b", "2"); ("a", "3")] in
  let w := ready_world {["c" := mkRow "0" 0 5]} 1700000000123 [] in
  Initialized w
  ∧ calm 5 w
  ∧ disk (multiSet kvs w).2
    = disk (session [CallSetItem "a" "1"; CallSetItem "b" "2"; CallSetItem "a" "3"] w).
Proof.
  intros kvs w.
  assert (H1 : Initialized w) by apply ready_world_Initialized.
  assert (H2 : calm (S (S (length kvs))) w)
    by (apply (bool_decide_unpack _); vm_compute; exact I).
  split_and!; [exact H1 | exact H2 |].
  apply (multiSet_as_setItems kvs w H1 H2).
Defined.

(** ** Overwriting *)

(** X14. Overwriting a record replaces its value and refreshes
    [updated_at] to the time of the call in whole seconds; [created_at] is
    the one the record already had. *)
Theorem setItem_overwrite_keeps_created_at key val w r :
  Initialized w →
  next_fault w = false →
  stored w key = Some r →
  (setItem key val w).1 = Resolved ()
  ∧ stored (setItem key val w).2 key
    = Some (mkRow val (created_at r) (clock w `div` 1000)).
Proof.
  intros Hinit Hf Hk. destruct (Initialized_disk w Hinit) as [t Ht].
  destruct (setItem_ok_initialized key val w t Hinit Hf Ht) as [_ Hrow].
  split.
  - destruct Hinit as (Hr & _). by rewrite (setItem_ok w Hr key val t).
  - rewrite Hrow. rewrite (stored_disk w t) in Hk by done. by rewrite Hk.
Qed.

Lemma setItem_overwrite_keeps_created_at_witness :
  let r := mkRow "1" 1600000000 1600000500 in
  let w := ready_world {["a" := r]} 1700000000999 [] in
  Initialized w
  ∧ next_fault w = false
  ∧ stored w "a" = Some r
  ∧ (setItem "a" "2" w).1 = Resolved ()
  ∧ stored (setItem "a" "2" w).2 "a" = Some (mkRow "2" 1600000000 1700000000).
Proof.
  intros r w.
  assert (H1 : Initialized w) by apply ready_world_Initialized.
  assert (H2 : next_fault w = false) by reflexivity.
  assert (H3 : stored w "a" = Some r) by reflexivity.
  split_and!; [exact H1 | exact H2 | exact H3 |..];
    apply (setItem_overwrite_keeps_created_at "a" "2" w r H1 H2 H3).
Defined.

(** ** Reading one key or many *)

(** X15. [multiGet] and [getItem] agree on every key whose value is not
    the empty string: with the statements going through, the pair at a key's
    position carries what [getItem] returns for that key, null included. *)
Theorem multiGet_agrees_with_getItem keys w i key v :
  Initialized w →
  next_fault w = false →
  keys !! i = Some key →
  (getItem key w).1 = Resolved v →
  v ≠ Some "" →
  ∃ pairs, (multiGet keys w).1 = Resolved pairs ∧ pairs !! i = Some (key, v).
Proof.
  intros Hinit Hf Hi Hget Hv. destruct (Initialized_disk w Hinit) as [t Ht].
  destruct Hinit as (Hr & _ & _).
  rewrite (multiGet_ok_lookup keys w t) by done.
  rewrite (getItem_ok w Hr key t) in Hget by done. cbn in Hget. injection Hget as <-.
  eexists. split; [done|]. rewrite list_lookup_fmap, Hi. cbn. do 2 f_equal.
  destruct (t !! key) as [r|]; cbn in *; [|done].
  rewrite decide_False; [done|]. intros Heq. apply Hv. by rewrite Heq.
Qed.

Lemma multiGet_agrees_with_getItem_witness :
  let w := ready_world {["a" := mkRow "1" 0 5]} 1700000000123 [] in
  Initialized w
  ∧ next_fault w = false
  ∧ ["zz"; "a"] !! 1%nat = Some "a"
  ∧ (getItem "a" w).1 = Resolved (Some "1")
  ∧ Some "1" ≠ Some ""
  ∧ ∃ pairs, (multiGet ["zz"; "a"] w).1 = Resolved pairs
      ∧ pairs !! 1%nat = Some ("a", Some "1").
Proof.
  intros w.
  assert (H1 : Initialized w) by apply ready_world_Initialized.
  assert (H2 : next_fault w = false) by reflexivity.
  assert (H3 : ["zz"; "a"] !! 1%nat = Some "a") by reflexivity.
  assert (H4 : (getItem "a" w).1 = Resolved (Some "1")) by reflexivity.
  assert (H5 : Some "1" ≠ Some "") by discriminate.
  split_and!; [exact H1 | exact H2 | exact H3 | exact H4 | exact H5 |].
  apply (multiGet_agrees_with_getItem ["zz"; "a"] w 1 "a" (Some "1") H1 H2 H3 H4 H5).
Defined.

(** ** Rejected writes *)

(** X16. A write that rejects has written nothing: whatever the reason
    ([ready] not set, a driver fault, a missing table, a failed statement in
    a batch), the table after a rejected [setItem], [removeItem],
    [multiSet], [multiRemove] or [clear] is the table before. *)
Theorem rejected_write_changes_nothing w :
  journal w = None →
  (∀ key val e, (setItem key val w).1 = Rejected e → disk (setItem key val w).2 = disk w)
  ∧ (∀ key e, (removeItem key w).1 = Rejected e → disk (removeItem key w).2 = disk w)
  ∧ (∀ kvs e, (multiSet kvs w).1 = Rejected e → disk (multiSet kvs w).2 = disk w)
  ∧ (∀ keys e, (multiRemove keys w).1 = Rejected e → disk (multiRemove keys w).2 = disk w)
  ∧ (∀ e, (clear w).1 = Rejected e → disk (clear w).2 = disk w).
Proof.
  intros Hj. split_and!; intros until e.
  - split_ready w; [split_statement w|].
    + rewrite setItem_fault by done. by destruct w.
    + by rewrite (setItem_ok w Hready key val t).
    + rewrite setItem_no_table by done. by destruct w.
    + by rewrite setItem_not_ready.
  - split_ready w; [split_statement w|].
    + rewrite removeItem_fault by done. by destruct w.
    + by rewrite (removeItem_ok w Hready key t).
    + rewrite removeItem_no_table by done. by destruct w.
    + by rewrite removeItem_not_ready.
  - split_ready w.
    + destruct (multiSet_run kvs w Hready Hj) as (o & w' & -> & _ & _ & _ & _ & Ho).
      cbn. intros ->. apply Ho.
    + by rewrite multiSet_not_ready.
  - split_ready w; [split_statement w|].
    + rewrite multiRemove_fault by done. by destruct w.
    + by rewrite (multiRemove_ok w Hready keys t).
    + rewrite multiRemove_no_table by done. by destruct w.
    + by rewrite multiRemove_not_ready.
  - split_ready w; [split_statement w|].
    + rewrite clear_fault by done. by destruct w.
    + by rewrite (clear_ok w Hready t).
    + rewrite clear_no_table by done. by destruct w.
    + by rewrite clear_not_ready.
Qed.

Lemma rejected_write_changes_nothing_witness :
  let w := ready_world {["a" := mkRow "1" 0 5]} 1700000000123 [false; false; false; true] in
  journal w = None
  ∧ (multiSet [("a", "2"); ("b", "3")] w).1 = Rejected SQLiteError
  ∧ disk (multiSet [("a", "2"); ("b", "3")] w).2 = disk w.
Proof.
  intros w.
  assert (H1 : journal w = None) by reflexivity.
  assert (H2 : (multiSet [("a", "2"); ("b", "3")] w).1 = Rejected SQLiteError)
    by (vm_compute; reflexivity).
  pose proof (rejected_write_changes_nothing w H1) as (_ & _ & Hms & _).
  split_and!; [exact H1 | exact H2 | exact (Hms _ _ H2)].
Defined.

(** ** getStorageStats *)



(** * The shim and the layout *)

Lemma init_resolved_iff w : (init w).1 = Resolved () ↔ calm 2 w.
Proof.
  split; [|intros Hc; by rewrite init_ok].
  destruct w as [d j [|b1 [|b2 fs]] c l h r]; try destruct b1; try destruct b2;
    async_unfold; try destruct d; cbn; intros H; try discriminate H;
    apply (bool_decide_unpack _); reflexivity.
Qed.

Lemma init_resolved_ready w : (init w).1 = Resolved () → is_ready (init w).2.
Proof. intros Hc%init_resolved_iff. rewrite init_ok by done. by split. Qed.

(** What [initWithSQLite] does, by the outcome of [init] and of the
    [require]. *)
Lemma initWithSQLite_run config a :
  initWithSQLite config a
  = match init (storage a) with
    | (Rejected e, w') =>
        (AppRejected (StorageFault e),
         mkApp w' (AsyncStorageModule a) (originalAsyncStorage a)
               (app_console a ++ [LogSettingUp]) (layout_db a) (isReady a) (error a))
    | (Resolved _, w') =>
        match AsyncStorageModule a with
        | None =>
            (AppRejected ModuleNotFound,
             mkApp w' None (originalAsyncStorage a)
                   (app_console a ++ [LogSettingUp; ErrOverride ModuleNotFound])
                   (layout_db a) (isReady a) (error a))
        | Some m =>
            (AppResolved (Client config),
             mkApp w' (Some (override m)) (Some m)
                   (app_console a ++ [LogSettingUp; LogOverridden; LogInstantInitialized])
                   (layout_db a) (isReady a) (error a))
        end
    end.
Proof.
  unfold initWithSQLite, on_storage, app_try_catch, require_AsyncStorage, assign,
    app_log, app_modify, app_throw, mbind, mret, AppAsync_bind, AppAsync_ret,
    app_await, app_resolve, instantInit.
  destruct a as [w m o l d r e]. cbn.
  destruct (init w) as [[[]|err] w']; [|done].
  destruct m as [m|]; cbn; rewrite <- ?(assoc_L (++)); reflexivity.
Qed.

Lemma assign_all_lookup_notin (l : list (string * AdapterMethod)) : ∀ (m : gmap string Fn) name,
  name ∉ l.*1 →
  foldl (λ m p, <[p.1 := BoundFn p.2]> m) m l !! name = m !! name.
Proof.
  induction l as [|p l IH]; intros m name Hn; [done|].
  cbn in *. apply not_elem_of_cons in Hn as [Hne Hn].
  rewrite IH by done. by rewrite lookup_insert_ne.
Qed.

Lemma assign_all_lookup_in (l : list (string * AdapterMethod)) : ∀ (m : gmap string Fn) p,
  NoDup l.*1 → p ∈ l →
  foldl (λ m p, <[p.1 := BoundFn p.2]> m) m l !! p.1 = Some (BoundFn p.2).
Proof.
  induction l as [|q l IH]; intros m p Hnd Hp; [by apply elem_of_nil in Hp|].
  cbn in *. apply NoDup_cons in Hnd as [Hq Hnd].
  apply elem_of_cons in Hp as [->|Hp].
  - rewrite assign_all_lookup_notin by done. apply lookup_insert_eq.
  - by apply IH.
Qed.

Lemma overridden_NoDup : NoDup overridden.*1.
Proof. apply (bool_decide_unpack _). vm_compute. exact I. Qed.

Lemma override_lookup_in m p :
  p ∈ overridden → override m !! p.1 = Some (BoundFn p.2).
Proof. apply assign_all_lookup_in, overridden_NoDup. Qed.

Lemma override_lookup_notin m name :
  name ∉ overridden.*1 → override m !! name = m !! name.
Proof. apply assign_all_lookup_notin. Qed.

Lemma override_idemp m : override (override m) = override m.
Proof.
  apply map_eq. intros name.
  destruct (decide (name ∈ overridden.*1)) as [Hin|Hn].
  - apply list_elem_of_fmap in Hin as (p & -> & Hp). by rewrite !override_lookup_in.
  - by rewrite !override_lookup_notin.
Qed.

(** X18. When [init] goes through and the AsyncStorage package is there,
    [initWithSQLite] resolves to the client made from [config], with the
    adapter initialized, the eight methods of AsyncStorage bound to the
    adapter, every other property of AsyncStorage left as it was, and the
    object as it was before saved in [originalAsyncStorage]. *)
Theorem initWithSQLite_installs_shim config a m :
  calm 2 (storage a) →
  journal (storage a) = None →
  AsyncStorageModule a = Some m →
  ∃ a' m', initWithSQLite config a = (AppResolved (Client config), a')
    ∧ Initialized (storage a')
    ∧ AsyncStorageModule a' = Some m'
    ∧ (∀ p, p ∈ overridden → m' !! p.1 = Some (BoundFn p.2))
    ∧ (∀ name, name ∉ overridden.*1 → m' !! name = m !! name)
    ∧ originalAsyncStorage a' = Some m.
Proof.
  intros Hcalm Hj Hm. rewrite initWithSQLite_run. rewrite Hm. rewrite (init_ok (storage a) Hcalm).
  eexists _, _. split; [reflexivity|]. cbn.
  split_and!; try done.
  - intros p. apply override_lookup_in.
  - intros name. apply override_lookup_notin.
Qed.

Lemma initWithSQLite_installs_shim_witness :
  let m : gmap string Fn :=
    {["getItem" := NativeFn "getItem"; "mergeItem" := NativeFn "mergeItem"]} in
  let a := launch (sqliteStorage None 1700000000123 []) (Some m) in
  calm 2 (storage a)
  ∧ journal (storage a) = None
  ∧ AsyncStorageModule a = Some m
  ∧ ∃ a' m', initWithSQLite (mkConfig "app") a = (AppResolved (Client (mkConfig "app")), a')
      ∧ Initialized (storage a')
      ∧ AsyncStorageModule a' = Some m'
      ∧ (∀ p, p ∈ overridden → m' !! p.1 = Some (BoundFn p.2))
      ∧ (∀ name, name ∉ overridden.*1 → m' !! name = m !! name)
      ∧ originalAsyncStorage a' = Some m.
Proof.
  intros m a.
  assert (H1 : calm 2 (storage a)) by (apply (bool_decide_unpack _); vm_compute; exact I).
  assert (H2 : journal (storage a) = None) by reflexivity.
  assert (H3 : AsyncStorageModule a = Some m) by reflexivity.
  split_and!; [exact H1 | exact H2 | exact H3 |].
  apply (initWithSQLite_installs_shim (mkConfig "app") a m H1 H2 H3).
Defined.

(** X19. When [init] fails, [initWithSQLite] rejects with the adapter's
    fault before it touches AsyncStorage: the object and
    [originalAsyncStorage] are as they were, and no client is made. *)
Theorem initWithSQLite_init_failure config a :
  ¬ calm 2 (storage a) →
  ∃ e a', initWithSQLite config a = (AppRejected (StorageFault e), a')
    ∧ AsyncStorageModule a' = AsyncStorageModule a
    ∧ originalAsyncStorage a' = originalAsyncStorage a.
Proof.
  intros Hcalm. rewrite initWithSQLite_run.
  destruct (init (storage a)) as [[[]|e] w'] eqn:Hinit.
  - exfalso. apply Hcalm, init_resolved_iff. by rewrite Hinit.
  - eexists _, _. split; [reflexivity|]. done.
Qed.

Lemma initWithSQLite_init_failure_witness :
  let m : gmap string Fn := {["getItem" := NativeFn "getItem"]} in
  let a := launch (sqliteStorage None 1700000000123 [true]) (Some m) in
  ¬ calm 2 (storage a)
  ∧ ∃ e a', initWithSQLite (mkConfig "app") a = (AppRejected (StorageFault e), a')
      ∧ AsyncStorageModule a' = AsyncStorageModule a
      ∧ originalAsyncStorage a' = originalAsyncStorage a.
Proof.
  intros m a.
  assert (H1 : ¬ calm 2 (storage a)) by (apply (bool_decide_unpack _); vm_compute; exact I).
  split; [exact H1 | apply (initWithSQLite_init_failure (mkConfig "app") a H1)].
Defined.

Lemma restoreAsyncStorage_run a :
  restoreAsyncStorage a
  = match originalAsyncStorage a with
    | None => (AppResolved (), a)
    | Some original =>
        match AsyncStorageModule a with
        | None => (AppRejected ModuleNotFound, a)
        | Some m =>
            (AppResolved (),
             set_app_console (app_console a ++ [LogRestored])
               (set_AsyncStorageModule (Some (original ∪ m)) a))
        end
    end.
Proof.
  unfold restoreAsyncStorage, require_AsyncStorage, app_get, app_log, app_modify,
    mbind, mret, AppAsync_bind, AppAsync_ret, app_await, app_resolve, Object_assign.
  destruct a as [w m o l d r e]. cbn. destruct o as [o|]; [|done]. by destruct m.
Qed.

(** X20. [restoreAsyncStorage] undoes the shim: after an [initWithSQLite]
    that went through on an AsyncStorage object that had the eight methods,
    it puts the object back exactly as it was. *)
Theorem restoreAsyncStorage_undoes_shim config a m :
  calm 2 (storage a) →
  AsyncStorageModule a = Some m →
  (∀ name, name ∈ overridden.*1 → is_Some (m !! name)) →
  (restoreAsyncStorage (initWithSQLite config a).2).1 = AppResolved ()
  ∧ AsyncStorageModule (restoreAsyncStorage (initWithSQLite config a).2).2 = Some m.
Proof.
  intros Hcalm Hm Hall. rewrite initWithSQLite_run. rewrite Hm.
  rewrite (init_ok (storage a) Hcalm). cbn [snd].
  rewrite restoreAsyncStorage_run. cbn. split; [done|]. f_equal.
  apply map_eq. intros name.
  destruct (m !! name) as [f|] eqn:Hname.
  - by apply lookup_union_Some_l.
  - apply lookup_union_None. split; [done|].
    rewrite override_lookup_notin; [done|].
    intros Hin. apply Hall in Hin as [f Hf]. congruence.
Qed.

Lemma restoreAsyncStorage_undoes_shim_witness :
  let a := launch (sqliteStorage None 1700000000123 []) (Some AsyncStorage_shipped) in
  calm 2 (storage a)
  ∧ AsyncStorageModule a = Some AsyncStorage_shipped
  ∧ (∀ name, name ∈ overridden.*1 → is_Some (AsyncStorage_shipped !! name))
  ∧ (restoreAsyncStorage (initWithSQLite (mkConfig "app") a).2).1 = AppResolved ()
  ∧ AsyncStorageModule (restoreAsyncStorage (initWithSQLite (mkConfig "app") a).2).2
    = Some AsyncStorage_shipped.
Proof.
  intros a.
  assert (H1 : calm 2 (storage a)) by (apply (bool_decide_unpack _); vm_compute; exact I).
  assert (H2 : AsyncStorageModule a = Some AsyncStorage_shipped) by reflexivity.
  assert (H3 : ∀ name, name ∈ overridden.*1 → is_Some (AsyncStorage_shipped !! name)).
  { intros name Hin. cbn in Hin.
    repeat (apply elem_of_cons in Hin as [->|Hin]; [vm_compute; eauto|]).
    by apply elem_of_nil in Hin. }
  split_and!; [exact H1 | exact H2 | exact H3 |..];
    apply (restoreAsyncStorage_undoes_shim (mkConfig "app") a AsyncStorage_shipped H1 H2 H3).
Defined.

(** X21. [initWithSQLite] saves whatever AsyncStorage holds when it runs:
    run a second time, it saves the object already bound to the adapter, and
    [restoreAsyncStorage] then leaves the eight methods bound to the
    adapter. *)
Theorem second_initWithSQLite_saves_the_shim config config' a m :
  calm 4 (storage a) →
  AsyncStorageModule a = Some m →
  let a2 := (initWithSQLite config' (initWithSQLite config a).2).2 in
  originalAsyncStorage a2 = Some (override m)
  ∧ AsyncStorageModule (restoreAsyncStorage a2).2 = Some (override m)
  ∧ ∀ p, p ∈ overridden →
      AsyncStorageModule (restoreAsyncStorage a2).2 ≫= (.!! p.1) = Some (BoundFn p.2).
Proof.
  intros Hcalm Hm a2. subst a2.
  assert (Hc2 : calm 2 (storage a)) by (by apply (calm_mono _ 4); [lia|]).
  rewrite (initWithSQLite_run config). rewrite Hm. rewrite (init_ok (storage a) Hc2).
  cbn [snd]. rewrite initWithSQLite_run. cbn [storage AsyncStorageModule].
  rewrite init_ok.
  2:{ apply calm_S in Hcalm as [_ Hcalm]. apply calm_S in Hcalm as [_ Hcalm].
      revert Hcalm. unfold calm. cbn. destruct (faults (storage a)) as [|? [|? ?]]; done. }
  cbn [snd]. rewrite restoreAsyncStorage_run. cbn.
  rewrite override_idemp.
  assert (Heq : override m ∪ override m = override m) by apply (idemp (∪)).
  split_and!; [done|by rewrite Heq|].
  intros p Hp. rewrite Heq. by apply override_lookup_in.
Qed.

Lemma second_initWithSQLite_saves_the_shim_witness :
  let a := launch (sqliteStorage None 1700000000123 []) (Some AsyncStorage_shipped) in
  let a2 := (initWithSQLite (mkConfig "app") (initWithSQLite (mkConfig "app") a).2).2 in
  calm 4 (storage a)
  ∧ AsyncStorageModule a = Some AsyncStorage_shipped
  ∧ AsyncStorageModule (restoreAsyncStorage a2).2 ≫= (.!! "getItem")
    = Some (BoundFn MgetItem).
Proof.
  intros a a2.
  assert (H1 : calm 4 (storage a)) by (apply (bool_decide_unpack _); vm_compute; exact I).
  assert (H2 : AsyncStorageModule a = Some AsyncStorage_shipped) by reflexivity.
  pose proof (second_initWithSQLite_saves_the_shim (mkConfig "app") (mkConfig "app")
                a AsyncStorage_shipped H1 H2) as (_ & _ & H).
  split_and!; [exact H1 | exact H2 |].
  apply (H ("getItem", MgetItem)). apply list_elem_of_here.
Defined.

(** ** The loading gate *)

Lemma getStorageStats_ready w :
  is_ready w →
  ∃ n, getStorageStats w = (Resolved (n, "SQLite"), (getStorageSize w).2)
    ∧ (n = 0 ∨ ∃ t, disk w = Some t ∧ n = Z.of_nat (size (dom t))).
Proof.
  intros Hr. unfold getStorageStats, mbind, Async_bind, await.
  split_statement w.
  - rewrite getStorageSize_fault by done. eauto.
  - rewrite (getStorageSize_ok w Hr t) by done. eexists. split; [done|].
    right. exists t. by rewrite size_dom.
  - rewrite getStorageSize_no_table by done. eauto.
Qed.

Lemma initializeApp_run env a :
  initializeApp env a
  = match initWithSQLite (mkConfig (APP_ID env))
            (set_app_console (app_console a ++ [LogStarting]) a) with
    | (AppRejected e, a') =>
        (AppResolved (),
         setError (Some e) (set_app_console (app_console a' ++ [ErrInitialization e]) a'))
    | (AppResolved client, a') =>
        match getStorageStats (storage a') with
        | (Resolved stats, w') =>
            (AppResolved (),
             mkApp w' (AsyncStorageModule a') (originalAsyncStorage a')
                   (app_console a' ++ [LogStats stats.1 stats.2; LogAppInitialized])
                   (Some client) true (error a'))
        | (Rejected e, w') =>
            (AppResolved (),
             mkApp w' (AsyncStorageModule a') (originalAsyncStorage a')
                   (app_console a' ++ [ErrInitialization (StorageFault e)])
                   (Some client) (isReady a') (Some (StorageFault e)))
        end
    end.
Proof.
  unfold initializeApp, app_try_catch, app_log, app_modify, on_storage.
  unfold mbind at 1 2 3 4 5 6. unfold AppAsync_bind, app_await. cbn.
  destruct (initWithSQLite _ _) as [[client|e] a']; [|done].
  destruct a' as [w m o l d r e]. cbn.
  destruct (getStorageStats w) as [[stats|e'] w']; cbn; [|done].
  by rewrite <- (assoc_L (++)).
Qed.


(** X23. The gate opens exactly when the two statements of [init] go
    through and the AsyncStorage package is there; a fault on the count
    behind [getStorageStats] does not keep it shut.  Until then [getDB]
    throws. *)
Theorem initializeApp_opens_iff env a :
  isReady a = false →
  layout_db a = None →
  (getDB a).1 = AppRejected DatabaseNotInitialized
  ∧ (isReady (initializeApp env a).2 = true
     ↔ calm 2 (storage a) ∧ is_Some (AsyncStorageModule a))
  ∧ (isReady (initializeApp env a).2 = true →
     (getDB (initializeApp env a).2).1 = AppResolved (Client (mkConfig (APP_ID env))))
  ∧ (isReady (initializeApp env a).2 = false →
     (getDB (initializeApp env a).2).1 = AppRejected DatabaseNotInitialized).
Proof.
  intros Hready Hdb.
  assert (Hget : ∀ b, (getDB b).1 = match layout_db b with
                                    | Some c => AppResolved c
                                    | None => AppRejected DatabaseNotInitialized
                                    end).
  { intros b. unfold getDB, app_get, app_throw, mbind, mret, AppAsync_bind,
      AppAsync_ret, app_await, app_resolve. cbn. by destruct (layout_db b). }
  split; [by rewrite Hget, Hdb|].
  rewrite !Hget.
  rewrite initializeApp_run, initWithSQLite_run. cbn.
  destruct (init (storage a)) as [[[]|e] w'] eqn:Hinit; cbn.
  2:{ rewrite Hready, Hdb. split_and!; try done. split; [done|].
      intros [Hc%init_resolved_iff _]. by rewrite Hinit in Hc. }
  assert (Hcalm : calm 2 (storage a)) by (apply init_resolved_iff; by rewrite Hinit).
  destruct (AsyncStorageModule a) as [m|] eqn:Hm; cbn.
  2:{ rewrite Hready, Hdb. split_and!; try done. split; [done|]. by intros [_ [? ?]]. }
  assert (Hr : is_ready w').
  { replace w' with (init (storage a)).2 by (by rewrite Hinit).
    apply init_resolved_ready. by rewrite Hinit. }
  destruct (getStorageStats_ready w' Hr) as (n & -> & _). cbn.
  split_and!; done.
Qed.

Lemma initializeApp_opens_iff_witness :
  let a := launch (sqliteStorage None 1700000000123 [false; false; true])
                  (Some AsyncStorage_shipped) in
  isReady a = false
  ∧ layout_db a = None
  ∧ calm 2 (storage a) ∧ is_Some (AsyncStorageModule a)
  ∧ isReady (initializeApp None a).2 = true
  ∧ (getDB (initializeApp None a).2).1
    = AppResolved (Client (mkConfig "__YOUR_APP_ID__")).
Proof.
  intros a.
  assert (H1 : isReady a = false) by reflexivity.
  assert (H2 : layout_db a = None) by reflexivity.
  assert (H3 : calm 2 (storage a)) by (apply (bool_decide_unpack _); vm_compute; exact I).
  assert (H4 : is_Some (AsyncStorageModule a)) by (by eexists).
  pose proof (initializeApp_opens_iff None a H1 H2) as (_ & Hiff & Hget & _).
  assert (H5 : isReady (initializeApp None a).2 = true) by (apply Hiff; by split).
  split_and!; [exact H1 | exact H2 | exact H3 | exact H4 | exact H5 | exact (Hget H5)].
Defined.
